(** * source_separation: the inference and reconstruction pipeline of
      [synthesize.py]

    A shallow embedding of [source_separation/synthesize.py]: the three entry
    points [run] (single file), [validate] (paired corpus) and [test_dir]
    (directory batch), the worker [test_worker] and the dataset
    [WaveDataset].

    Samples are exact rationals ([Q]): every finite float is a rational, and
    the rounding of float32 arithmetic is left out.  The neural network, the
    torch pre-emphasis module, the low-pass filter, the audio decoder and the
    file system are collaborators the script receives; they are fields of
    the record [collaborators].  What the script does to the outside world
    (directories made, forward passes, files written) is a log of events
    carried by a small writer-and-exception monad. *)

From Stdlib Require Import String Ascii List Bool Arith ZArith QArith Lia.
From Stdlib Require Import DecimalString DecimalNat.
Import ListNotations.

Close Scope Q_scope.
Local Open Scope string_scope.
Local Open Scope list_scope.

(** ** Waveforms *)

Definition sample : Type := Q.
Definition wave : Type := list sample.

(** ** Signal transforms *)

Module Sound.

Local Open Scope Q_scope.

(** The default coefficient of [preemphasis] and [inv_preemphasis]. *)
Definition coeff : Q := 97 # 100.

(** Modelled from the spec: [preemphasis] and [inv_preemphasis] are
    imported from [pytorch_sound.utils.sound], which is not part of the
    sources; the spec gives the two recurrences
    [y[0] = x[0]], [y[n] = x[n] - a*x[n-1]] and
    [x[0] = y[0]], [x[n] = y[n] + a*x[n-1]]. *)
Fixpoint preemphasis_tail (a : Q) (prev : sample) (x : wave) : wave :=
  match x with
  | [] => []
  | s :: rest => (s - a * prev) :: preemphasis_tail a s rest
  end.

Definition preemphasis_with (a : Q) (x : wave) : wave :=
  match x with
  | [] => []
  | s :: rest => s :: preemphasis_tail a s rest
  end.

(** [prev] is the previous *output* sample: the inverse filter is
    recursive. *)
Fixpoint inv_preemphasis_tail (a : Q) (prev : sample) (y : wave) : wave :=
  match y with
  | [] => []
  | s :: rest =>
      let o := s + a * prev in
      o :: inv_preemphasis_tail a o rest
  end.

Definition inv_preemphasis_with (a : Q) (y : wave) : wave :=
  match y with
  | [] => []
  | s :: rest => s :: inv_preemphasis_tail a s rest
  end.

Definition preemphasis : wave -> wave := preemphasis_with coeff.
Definition inv_preemphasis : wave -> wave := inv_preemphasis_with coeff.

(** [ndarray.clip(lo, hi)]: [minimum(maximum(x, lo), hi)] on every
    sample. *)
Definition maximum (x y : Q) : Q := if Qle_bool x y then y else x.
Definition minimum (x y : Q) : Q := if Qle_bool x y then x else y.
Definition clip_sample (lo hi x : Q) : Q := minimum (maximum x lo) hi.
Definition clip (lo hi : Q) (w : wave) : wave := map (clip_sample lo hi) w.

(** Two waveforms agree sample by sample, as rational numbers. *)
Definition wave_eq (u v : wave) : Prop := Forall2 Qeq u v.

Definition in_range (x : Q) : Prop := -(1) <= x /\ x <= 1.

(** [y] is [x] clamped to [[-1, 1]]: kept when inside, replaced by the
    nearer bound when outside. *)
Definition clamped (x y : Q) : Prop :=
  in_range y /\
  ((x <= -(1) /\ y = -(1)) \/ (1 < x /\ y = 1) \/ (in_range x /\ y = x)).

End Sound.

(** ** Python strings and POSIX paths *)

Module PyStr.

Definition slash : ascii := "/"%char.

(** [s.endswith('/')] *)
Fixpoint endswith_slash (s : string) : bool :=
  match s with
  | EmptyString => false
  | String c EmptyString => Ascii.eqb c slash
  | String _ r => endswith_slash r
  end.

(** [s.endswith(suffix)] *)
Fixpoint endswith (suffix s : string) : bool :=
  String.eqb suffix s ||
  match s with
  | EmptyString => false
  | String _ r => endswith suffix r
  end.

(** [s.replace(old, new)] for a non-empty [old]: occurrences are taken
    from the left and do not overlap; [skip] counts the characters of the
    occurrence found last that are still to be dropped. *)
Fixpoint replace_from (old new : string) (skip : nat) (s : string) : string :=
  match s with
  | EmptyString => EmptyString
  | String c r =>
      match skip with
      | S k => replace_from old new k r
      | O =>
          if String.prefix old s
          then new ++ replace_from old new (String.length old - 1) r
          else String c (replace_from old new 0 r)
      end
  end.

(** With an empty [old] Python puts [new] before every character and at
    the end. *)
Fixpoint interleave (new s : string) : string :=
  match s with
  | EmptyString => new
  | String c r => new ++ String c (interleave new r)
  end.

Definition replace (old new s : string) : string :=
  match old with
  | EmptyString => interleave new s
  | String _ _ => replace_from old new 0 s
  end.

(** ['{}'.format(n)] for a non-negative integer: its decimal digits. *)
Definition str_of_nat (n : nat) : string :=
  NilZero.string_of_uint (Nat.to_uint n).

End PyStr.

Module Posix.

Import PyStr.

(** [p.rfind('/') + 1] *)
Fixpoint rfind_slash_succ (p : string) : nat :=
  match p with
  | EmptyString => 0
  | String c r =>
      match rfind_slash_succ r with
      | O => if Ascii.eqb c slash then 1 else 0
      | S k => S (S k)
      end
  end.

(** [head == '/' * len(head)] *)
Fixpoint all_slashes (s : string) : bool :=
  match s with
  | EmptyString => true
  | String c r => Ascii.eqb c slash && all_slashes r
  end.

(** [head.rstrip('/')] *)
Fixpoint rstrip_slash (s : string) : string :=
  match s with
  | EmptyString => EmptyString
  | String c r =>
      let r' := rstrip_slash r in
      if Ascii.eqb c slash && String.eqb r' "" then "" else String c r'
  end.

(** [os.path.dirname] *)
Definition dirname (p : string) : string :=
  let i := rfind_slash_succ p in
  let head := substring 0 i p in
  if negb (String.eqb head "") && negb (all_slashes head)
  then rstrip_slash head
  else head.

(** [os.path.basename] *)
Definition basename (p : string) : string :=
  let i := rfind_slash_succ p in
  substring i (String.length p - i) p.

(** [os.path.join(a, b)] *)
Definition join (a b : string) : string :=
  if String.prefix "/" b then b
  else if String.eqb a "" || endswith_slash a then a ++ b
  else a ++ "/" ++ b.

End Posix.

(** ** Effects: a log of events, and exceptions *)

Definition batch : Type := list wave.

(** What the script does to the outside world. *)
Inductive event : Type :=
| Makedirs (path : string)                          (* os.makedirs(path, exist_ok=True) *)
| Forward (input : batch)                           (* model(input) *)
| WriteWav (path : string) (w : wave) (sr : Z).   (* librosa.output.write_wav *)

Inductive exn : Type :=
| OSError (path : string)
| IndexError
| TypeError
| ValueError.

Inductive result (A : Type) : Type :=
| Ok (a : A)
| Raise (e : exn).
Arguments Ok {A} a.
Arguments Raise {A} e.

(** A computation returns or raises, and leaves the events it performed, in
    the order it performed them. *)
Definition M (A : Type) : Type := (result A * list event)%type.

Definition ret {A} (a : A) : M A := (Ok a, []).
Definition raise {A} (e : exn) : M A := (Raise e, []).
Definition emit (ev : event) : M unit := (Ok tt, [ev]).
Definition lift {A} (r : result A) : M A := (r, []).

Definition bind {A B} (m : M A) (f : A -> M B) : M B :=
  match m with
  | (Ok a, l) => let (r, l') := f a in (r, l ++ l')
  | (Raise e, l) => (Raise e, l)
  end.

Notation "x <- m ;; k" := (bind m (fun x => k))
  (at level 61, m at next level, right associativity).
Notation "m ;;; k" := (bind m (fun _ => k))
  (at level 61, right associativity).

(** [for x in xs: body(x)] *)
Fixpoint for_each {A} (xs : list A) (body : A -> M unit) : M unit :=
  match xs with
  | [] => ret tt
  | x :: rest => body x ;;; for_each rest body
  end.

Definition log_of {A} (m : M A) : list event := snd m.
Definition outcome {A} (m : M A) : result A := fst m.

Definition is_write (e : event) : bool :=
  match e with WriteWav _ _ _ => true | _ => false end.

(** The files written, in order: path and content. *)
Definition written (l : list event) : list (string * wave) :=
  flat_map (fun e => match e with WriteWav p w _ => [(p, w)] | _ => [] end) l.

(** ** Python sequences *)

(** [enumerate(xs)] *)
Definition enumerate {A} (xs : list A) : list (nat * A) :=
  combine (seq 0 (length xs)) xs.

(** [zip(a, b, c)] *)
Definition zip3 {A B C} (a : list A) (b : list B) (c : list C)
  : list (A * (B * C)) :=
  combine a (combine b c).

(** [xs[lo:hi]] for [0 <= lo]. *)
Definition slice {A} (xs : list A) (lo hi : nat) : list A :=
  firstn (hi - lo) (skipn lo xs).

(** [range(0, stop, step)] for a positive [step]: [ceil(stop / step)]
    multiples of [step]. *)
Definition range_step (stop step : nat) : list nat :=
  map (fun k => k * step) (seq 0 ((stop + step - 1) / step)).

(** A numpy array of rank at most one. *)
Inductive ndarray : Type :=
| Arr0 (x : sample)
| Arr1 (w : wave).

(** [a.squeeze()] on a one-dimensional array: an axis of extent one is
    dropped, so a one-sample array becomes a 0-d array. *)
Definition squeeze (w : wave) : ndarray :=
  match w with
  | [x] => Arr0 x
  | _ => Arr1 w
  end.

(** [int(l)] on an array: only an array of one element converts. *)
Definition int_of_array (l : list nat) : result nat :=
  match l with
  | [n] => Ok n
  | _ => Raise TypeError
  end.

(** ** Collaborators *)

(** What [synthesize.py] imports and does not define. *)
Record collaborators : Type := {
  (** the loaded network in eval mode, [model(batch)] *)
  model : batch -> batch;
  (** the torch module [PreEmphasis()], on a batch *)
  preemp : batch -> batch;
  (** [lowpass(wav, frequency=f)] *)
  lowpass : wave -> Z -> wave;
  (** [librosa.load(path, sr=sr)[0]] *)
  librosa_load : string -> Z -> wave;
  (** [voice_bank.get_datasets(meta_dir, batch_size=...)[1]]: the batches
      [(noise, clean)] the validation loader yields *)
  valid_loader : string -> nat -> list (batch * batch);
  (** [Path(in_dir).glob('**/*.wav')] as strings *)
  glob_wav : string -> list string;
  (** [settings.SAMPLE_RATE] *)
  SAMPLE_RATE : Z;
  (** whether [os.makedirs(path, exist_ok=True)] succeeds *)
  can_mkdir : string -> bool;
  (** whether [write_wav(path, ...)] succeeds *)
  can_write : string -> bool;
  (** [inv_preemphasis] on a 0-d array, which the one-dimensional
      recurrence does not cover *)
  inv_preemphasis_0d : sample -> result wave
}.

(** Modelled from the spec: [SpeechDataLoader.pad_collate_fn] is imported
    from [pytorch_sound.data.dataset], which is not part of the sources; the
    spec has it stack the items in their order, each right-padded with
    zeros to the longest.  It is applied to every field of the items. *)
Module Collate.

Definition max_len {A} (rows : list (list A)) : nat :=
  fold_right Nat.max 0 (map (@length A) rows).

Definition pad_to {A} (zero : A) (L : nat) (row : list A) : list A :=
  row ++ repeat zero (L - length row).

Definition pad_rows {A} (zero : A) (rows : list (list A)) : list (list A) :=
  map (pad_to zero (max_len rows)) rows.

Definition pad_collate_fn (items : list (wave * list nat))
  : batch * list (list nat) :=
  (pad_rows 0%Q (map fst items), pad_rows 0%nat (map snd items)).

End Collate.

(** [torch.utils.data.BatchSampler] with [drop_last=False]: indices are
    gathered in order, and a batch is yielded each time [batch_size] of them
    are there, the rest at the end. *)
Fixpoint batch_sampler (batch_size : nat) (cur : list nat) (sampler : list nat)
  : list (list nat) :=
  match sampler with
  | [] => match cur with [] => [] | _ :: _ => [cur] end
  | idx :: rest =>
      let cur' := cur ++ [idx] in
      if Nat.eqb (length cur') batch_size
      then cur' :: batch_sampler batch_size [] rest
      else batch_sampler batch_size cur' rest
  end.

(** ** The script *)

Module Synthesize.

Import PyStr Posix Sound.

Section Script.

Variable C : collaborators.

Definition makedirs (path : string) : M unit :=
  if can_mkdir C path then emit (Makedirs path) else raise (OSError path).

Definition write_wav (path : string) (w : wave) (sr : Z) : M unit :=
  if can_write C path then emit (WriteWav path w sr)
  else raise (OSError path).

Definition forward (input : batch) : M batch :=
  emit (Forward input) ;;; ret (model C input).

(** *** [run] *)

Definition run (audio_file out_path : string) (lowpass_freq : Z)
           (sample_rate : Z) : M unit :=
  let wav := librosa_load C audio_file sample_rate in
  let wav := preemphasis wav in
  out_wav <- forward [wav] ;;
  match out_wav with
  | [] => raise IndexError
  | out_wav :: _ =>
      let out_wav :=
        if (lowpass_freq =? 0)%Z then out_wav
        else lowpass C out_wav lowpass_freq in
      write_wav out_path (clip (-(1))%Q 1%Q (inv_preemphasis out_wav))
                sample_rate
  end.

(** *** [validate] *)

(** The first loop: inference on every batch, the tensors kept in three
    lists. *)
Fixpoint infer_loop (loader : list (batch * batch))
         (noise_all clean_all results : list batch)
  : M (list batch * list batch * list batch) :=
  match loader with
  | [] => ret (noise_all, clean_all, results)
  | (noise, clean) :: rest =>
      let noise := preemp C noise in
      clean_hat <- forward noise ;;
      infer_loop rest (noise_all ++ [noise]) (clean_all ++ [clean])
                 (results ++ [clean_hat])
  end.

(** The body of the inner loop of the second loop. *)
Definition write_item (out_dir : string) (batch_size idx : nat)
           (it : nat * (wave * (wave * wave))) : M unit :=
  let '(in_idx, (clean_hat, (noise, clean))) := it in
  let noise_out_path :=
    join out_dir (str_of_nat (idx * batch_size + in_idx) ++ "_noise.wav") in
  let pred_out_path :=
    join out_dir (str_of_nat (idx * batch_size + in_idx) ++ "_pred.wav") in
  let clean_out_path :=
    join out_dir (str_of_nat (idx * batch_size + in_idx) ++ "_clean.wav") in
  write_wav clean_out_path clean (SAMPLE_RATE C) ;;;
  write_wav noise_out_path (inv_preemphasis noise) (SAMPLE_RATE C) ;;;
  write_wav pred_out_path (clip (-(1))%Q 1%Q (inv_preemphasis clean_hat))
            (SAMPLE_RATE C).

Definition write_all (out_dir : string) (batch_size : nat)
           (results noise_all clean_all : list batch) : M unit :=
  for_each (enumerate (zip3 results noise_all clean_all))
    (fun '(idx, (batch_clean_hat, (batch_noise, batch_clean))) =>
       for_each (enumerate (zip3 batch_clean_hat batch_noise batch_clean))
                (write_item out_dir batch_size idx)).

Definition validate (meta_dir out_dir : string) (batch_size : nat)
  : M unit :=
  let valid_loader := valid_loader C meta_dir batch_size in
  makedirs out_dir ;;;
  acc <- infer_loop valid_loader [] [] [] ;;
  let '(noise_all, clean_all, results) := acc in
  write_all out_dir batch_size results noise_all clean_all.

(** *** [test_worker], [WaveDataset], [test_dir] *)

Definition inv_preemphasis_nd (a : ndarray) : result wave :=
  match a with
  | Arr1 w => Ok (inv_preemphasis w)
  | Arr0 x => inv_preemphasis_0d C x
  end.

Definition test_worker (out_wav : wave) (file_path in_dir out_dir : string)
           (sample_rate : Z) (l : nat) : M unit :=
  let sub_dir := replace in_dir "" (dirname file_path) in
  let file_out_dir := join out_dir sub_dir in
  makedirs file_out_dir ;;;
  let out_file_path := join file_out_dir (basename file_path) in
  let out_wav := firstn l out_wav in
  out_wav <- lift (inv_preemphasis_nd (squeeze out_wav)) ;;
  write_wav out_file_path out_wav sample_rate.

(** [WaveDataset.__getitem__] *)
Definition getitem (wav_list : list string) (sample_rate : Z) (idx : nat)
  : wave * list nat :=
  let wav := librosa_load C (nth idx wav_list "") sample_rate in
  (preemphasis wav, [length wav]).

(** [DataLoader(dataset, batch_size, shuffle=False, collate_fn=...)]:
    the sequential sampler, batched, each batch collated. *)
Definition data_loader (wav_list : list string)
           (sample_rate : Z) (batch_size : nat)
  : list (batch * list (list nat)) :=
  map (fun idxs =>
         Collate.pad_collate_fn (map (getitem wav_list sample_rate) idxs))
      (batch_sampler batch_size [] (seq 0 (length wav_list))).

(** [parallel(delayed(f)(...) for ...)] as joblib runs it with one job
    ([num_workers = 1]): the tasks one after the other in the caller,
    the first exception ending the call.  With more jobs the same tasks
    run, in an order that is not fixed; the log then lists them in the
    order of dispatch, and says nothing of a call in which a task
    raises. *)
Definition parallel (tasks : list (M unit)) : M unit :=
  for_each tasks (fun t => t).

(** One element of the generator handed to [parallel]. *)
Definition worker_task (in_dir out_dir : string) (sample_rate : Z)
           (x : wave * (string * list nat)) : M unit :=
  let '(out_wav, (file_path, l)) := x in
  n <- lift (int_of_array l) ;;
  test_worker out_wav file_path in_dir out_dir sample_rate n.

(** The body of the loop of [test_dir]. *)
Definition test_dir_batch (in_dir out_dir : string) (sample_rate : Z)
           (batch_size : nat) (wav_list : list string)
           (x : (batch * list (list nat)) * nat) : M unit :=
  let '(dp, batch_idx) := x in
  let batch_wav := fst dp in
  let lens := snd dp in
  batch_clean_hat <- forward batch_wav ;;
  let zipping_list :=
    zip3 batch_clean_hat
         (slice wav_list batch_idx (batch_idx + batch_size)) lens in
  parallel (map (worker_task in_dir out_dir sample_rate) zipping_list).

Definition test_dir (in_dir out_dir : string) (sample_rate : Z)
           (batch_size : nat) : M unit :=
  let wav_list := glob_wav C in_dir in
  if Nat.eqb batch_size 0 then raise ValueError
  else
    let data_loader := data_loader wav_list sample_rate batch_size in
    makedirs out_dir ;;;
    for_each (combine data_loader (range_step (length wav_list) batch_size))
             (test_dir_batch in_dir out_dir sample_rate batch_size
                             wav_list).

End Script.

End Synthesize.

(** ** Descriptions of the logs *)

(** What the loops of the script leave in the log, written without the
    loops; the properties below relate the script to them. *)
Module Described.

Import PyStr Posix Sound Synthesize.

Section Described.

Variable C : collaborators.

(** The rows of batch [b] as the second loop sees them. *)
Definition rows_at (loader : list (batch * batch)) (b i : nat)
           (clean_hat noise clean : wave) : Prop :=
  exists nz cl : batch,
    nth_error loader b = Some (nz, cl) /\
    nth_error (model C (preemp C nz)) i = Some clean_hat /\
    nth_error (preemp C nz) i = Some noise /\
    nth_error cl i = Some clean.

(** The name of the file of kind [kind] of item [i] of batch [b]. *)
Definition item_path (out_dir : string) (batch_size b i : nat)
           (kind : string) : string :=
  join out_dir (str_of_nat (b * batch_size + i) ++ kind).

(** The three files of one item. *)
Definition item_events (out_dir : string) (batch_size b : nat)
           (it : nat * (wave * (wave * wave))) : list event :=
  let '(i, (clean_hat, (noise, clean))) := it in
  [WriteWav (item_path out_dir batch_size b i "_clean.wav") clean
            (SAMPLE_RATE C);
   WriteWav (item_path out_dir batch_size b i "_noise.wav")
            (inv_preemphasis noise) (SAMPLE_RATE C);
   WriteWav (item_path out_dir batch_size b i "_pred.wav")
            (clip (-(1))%Q 1%Q (inv_preemphasis clean_hat)) (SAMPLE_RATE C)].

(** The lists the first loop hands to the second. *)
Definition accumulated (loader : list (batch * batch))
  : list (nat * (batch * (batch * batch))) :=
  enumerate (zip3 (map (fun nc => model C (preemp C (fst nc))) loader)
                  (map (fun nc => preemp C (fst nc)) loader)
                  (map snd loader)).

Definition write_all_of (out_dir : string) (batch_size : nat)
           (loader : list (batch * batch)) : M unit :=
  write_all C out_dir batch_size
            (map (fun nc => model C (preemp C (fst nc))) loader)
            (map (fun nc => preemp C (fst nc)) loader)
            (map snd loader).

(** What [run] does to the row the network returns. *)
Definition postprocess_run (lowpass_freq : Z) (out_wav : wave) : wave :=
  clip (-(1))%Q 1%Q
       (inv_preemphasis
          (if (lowpass_freq =? 0)%Z then out_wav
           else lowpass C out_wav lowpass_freq)).

(** The order of the worker contract of the spec: step 2 is
    [de_emphasis], step 3 the optional [lowpass], step 4 the clipping. *)
Definition postprocess_spec_order (lowpass_freq : Z) (out_wav : wave)
  : wave :=
  let w := inv_preemphasis out_wav in
  let w := if (lowpass_freq =? 0)%Z then w
           else lowpass C w lowpass_freq in
  clip (-(1))%Q 1%Q w.

(** The directory and the path [test_worker] computes for a file. *)
Definition file_out_dir (file_path in_dir out_dir : string) : string :=
  join out_dir (replace in_dir "" (dirname file_path)).

Definition out_file_path (file_path in_dir out_dir : string) : string :=
  join (file_out_dir file_path in_dir out_dir) (basename file_path).

(** The item [WaveDataset] makes of a file. *)
Definition item_of (sample_rate : Z) (f : string) : wave * list nat :=
  (preemphasis (librosa_load C f sample_rate),
   [length (librosa_load C f sample_rate)]).

(** The files of batch [k]: [wav_list[k * batch_size : (k+1) * batch_size]]. *)
Definition files_of_batch (wav_list : list string) (batch_size k : nat)
  : list string :=
  slice wav_list (k * batch_size) (k * batch_size + batch_size).

(** The padded batch the network receives for these files. *)
Definition batch_of (sample_rate : Z) (files : list string) : batch :=
  fst (Collate.pad_collate_fn (map (item_of sample_rate) files)).

(** What the worker leaves for a file when nothing fails. *)
Definition worker_events (in_dir out_dir : string) (sample_rate : Z)
           (rf : wave * string) : list event :=
  [Makedirs (file_out_dir (snd rf) in_dir out_dir);
   WriteWav (out_file_path (snd rf) in_dir out_dir)
            (inv_preemphasis
               (firstn (length (librosa_load C (snd rf) sample_rate))
                       (fst rf)))
            sample_rate].

(** One batch: the forward pass, then the workers, row [i] of the
    output with file [i] of the batch. *)
Definition batch_run (in_dir out_dir : string) (sample_rate : Z)
           (files : list string) : M unit :=
  batch_clean_hat <- forward C (batch_of sample_rate files) ;;
  for_each (combine batch_clean_hat files)
           (fun rf =>
              test_worker C (fst rf) (snd rf) in_dir out_dir sample_rate
                          (length (librosa_load C (snd rf) sample_rate))).

Definition batch_events (in_dir out_dir : string) (sample_rate : Z)
           (files : list string) : list event :=
  Forward (batch_of sample_rate files)
    :: flat_map (worker_events in_dir out_dir sample_rate)
                (combine (model C (batch_of sample_rate files)) files).

(** The files one batch writes when nothing fails: path and content. *)
Definition batch_written (in_dir out_dir : string) (sample_rate : Z)
           (files : list string) : list (string * wave) :=
  map (fun rf : wave * string =>
         (out_file_path (snd rf) in_dir out_dir,
          inv_preemphasis
            (firstn (length (librosa_load C (snd rf) sample_rate))
                    (fst rf))))
      (combine (model C (batch_of sample_rate files)) files).

(** The directory of the file can be made, the file can be written, and
    the recording is not a single sample. *)
Definition file_ok (in_dir out_dir : string) (sample_rate : Z)
           (f : string) : Prop :=
  can_mkdir C (file_out_dir f in_dir out_dir) = true /\
  can_write C (out_file_path f in_dir out_dir) = true /\
  length (librosa_load C f sample_rate) <> 1.

(** The network returns a batch of the shape of its input. *)
Definition same_shape : Prop :=
  forall b : batch, map (@length sample) (model C b) = map (@length sample) b.

(** The number of batches of [n] files. *)
Definition batch_count (n batch_size : nat) : nat :=
  (n + batch_size - 1) / batch_size.

(** The number of items [validate] writes for one batch. *)
Definition items_in (nc : batch * batch) : nat :=
  length (zip3 (model C (preemp C (fst nc))) (preemp C (fst nc)) (snd nc)).

End Described.

End Described.

(** ** Readings of a log and of a name *)

Module Reading.

(** The batches the network was run on, in order. *)
Definition forwards (l : list event) : list batch :=
  flat_map (fun e => match e with Forward b => [b] | _ => [] end) l.

(** [c in s] *)
Fixpoint contains_char (c : ascii) (s : string) : bool :=
  match s with
  | EmptyString => false
  | String x r => Ascii.eqb x c || contains_char c r
  end.

(** The three kinds of files [validate] writes. *)
Definition kinds : list string :=
  ["_noise.wav"; "_pred.wav"; "_clean.wav"]%string.

End Reading.

(** ** A small concrete world *)

Module Demo.

Import Sound.

Local Open Scope Q_scope.

(** Five recordings under [in], one of them in a sub-directory. *)
Definition audio (path : string) (sr : Z) : wave :=
  if String.eqb path "in/a.wav" then [1 # 2; 1 # 2; 1 # 4]
  else if String.eqb path "in/s/b.wav" then [1; 1]
  else if String.eqb path "in/c.wav" then [1 # 10; 2 # 10; -1 # 10; 5 # 100]
  else if String.eqb path "x.wav" then [1; 97 # 100]
  else [1 # 3; 1 # 3].

(** A zero-phase smoothing filter, [(x[n-1] + 2 x[n] + x[n+1]) / 4] with
    silence beyond both ends, standing for [lowpass]. *)
Fixpoint smooth3_from (prev : Q) (x : wave) : wave :=
  match x with
  | [] => []
  | s :: rest => ((prev + 2 * s + hd 0 rest) / 4) :: smooth3_from s rest
  end.

Definition smooth3 (w : wave) (frequency : Z) : wave := smooth3_from 0 w.

(** A network that answers every sample with full scale. *)
Definition full_scale (b : batch) : batch := map (map (fun _ => 1)) b.

Definition identity (b : batch) : batch := b.

(** What is found under [in]: with a sub-directory, and without. *)
Definition tree : list string :=
  ["in/a.wav"; "in/s/b.wav"; "in/c.wav"; "in/d.wav"; "in/e.wav"]%string.

Definition flat : list string :=
  ["in/a.wav"; "in/e.wav"; "in/c.wav"; "in/d.wav"]%string.

(** The world: [net] is the network, [files] what the search finds, [bad]
    the paths that cannot be written. *)
Definition world (net : batch -> batch) (files bad : list string)
  : collaborators :=
  {| model := net;
     preemp := map preemphasis;
     lowpass := smooth3;
     librosa_load := audio;
     valid_loader := fun _ _ =>
       [ ([[1; 1]; [1 # 2]], [[3 # 2]; [1 # 2; 1 # 2]]);
         ([[1 # 5]], [[1 # 7]]) ];
     glob_wav := fun _ => files;
     SAMPLE_RATE := 22050%Z;
     can_mkdir := fun _ => true;
     can_write := fun p => negb (existsb (String.eqb p) bad);
     inv_preemphasis_0d := fun _ => Raise ValueError |}.

End Demo.

(** * Properties *)

Section RoundTrip.

Import Sound.
Local Open Scope Q_scope.
Variable a : Q.

Lemma preemphasis_tail_length (prev : sample) (x : wave) :
  length (preemphasis_tail a prev x) = length x.
Proof.
  revert prev; induction x as [|s rest IH]; intros prev; simpl; [reflexivity|].
  now rewrite IH.
Qed.

Lemma inv_preemphasis_tail_length (prev : sample) (y : wave) :
  length (inv_preemphasis_tail a prev y) = length y.
Proof.
  revert prev; induction y as [|s rest IH]; intros prev; simpl; [reflexivity|].
  now rewrite IH.
Qed.

(** The inverse recurrence undoes the forward one as soon as the two
    "previous sample" registers hold the same number. *)
Lemma inv_preemphasis_tail_cancel (x : wave) :
  forall p q : sample, q == p ->
    wave_eq (inv_preemphasis_tail a q (preemphasis_tail a p x)) x.
Proof.
  induction x as [|s rest IH]; intros p q Hpq; simpl.
  - constructor.
  - assert (Hs : s - a * p + a * q == s) by (rewrite Hpq; ring).
    constructor; [exact Hs|].
    apply IH. exact Hs.
Qed.

End RoundTrip.

(** C1: for every finite waveform [x] and every coefficient [a] (so also for
    every [0 < a < 1], and for the default 0.97), de-emphasis of the
    pre-emphasis of [x] gives back [x], sample by sample; over exact
    arithmetic the agreement is exact, hence within any tolerance. *)
Theorem inv_preemphasis_preemphasis (a : Q) (x : wave) :
  Sound.wave_eq (Sound.inv_preemphasis_with a (Sound.preemphasis_with a x)) x.
Proof.
  destruct x as [|s rest]; simpl.
  - constructor.
  - constructor; [reflexivity|].
    apply inv_preemphasis_tail_cancel. reflexivity.
Qed.

(** The scenario of the spec: with the default coefficient the two
    transforms composed give back [[0.1, 0.2, -0.1, 0.05]], and so does the
    whole of [run] around a network that returns its input. *)
Example round_trip_scenario :
  Sound.wave_eq
    (Sound.inv_preemphasis
       (Sound.preemphasis [1 # 10; 2 # 10; -1 # 10; 5 # 100]%Q))
    [1 # 10; 2 # 10; -1 # 10; 5 # 100]%Q /\
  exists w,
    written (log_of (Synthesize.run (Demo.world Demo.identity Demo.tree [])
                                    "in/c.wav" "o.wav" 0 22050))
    = [("o.wav"%string, w)] /\
    Sound.wave_eq w [1 # 10; 2 # 10; -1 # 10; 5 # 100]%Q.
Proof.
  split; [repeat constructor; reflexivity|].
  eexists. split; [reflexivity|].
  repeat constructor; reflexivity.
Qed.

(** ** The monad and the loops *)

Section MonadFacts.

Lemma bind_ok {A B} (a : A) (l : list event) (f : A -> M B) :
  bind (Ok a, l) f = (outcome (f a), l ++ log_of (f a)).
Proof. unfold bind, outcome, log_of. now destruct (f a). Qed.

Lemma bind_lift_ok {A B} (a : A) (f : A -> M B) : bind (lift (Ok a)) f = f a.
Proof. unfold bind, lift. now destruct (f a). Qed.

Lemma bind_raise {A B} (e : exn) (l : list event) (f : A -> M B) :
  bind (Raise e, l) f = (Raise e, l).
Proof. reflexivity. Qed.

Lemma log_bind_Forall {A B} (P : event -> Prop) (m : M A) (f : A -> M B) :
  Forall P (log_of m) -> (forall a, Forall P (log_of (f a))) ->
  Forall P (log_of (bind m f)).
Proof.
  destruct m as [[a|e] l]; intros Hm Hf; simpl in *; [|exact Hm].
  specialize (Hf a). destruct (f a) as [r l']. simpl in *.
  apply Forall_app; split; assumption.
Qed.

Lemma log_for_each_Forall {A} (P : event -> Prop) (xs : list A)
      (body : A -> M unit) :
  (forall x, In x xs -> Forall P (log_of (body x))) ->
  Forall P (log_of (for_each xs body)).
Proof.
  induction xs as [|x rest IH]; intros H; simpl.
  - constructor.
  - apply log_bind_Forall.
    + apply H. now left.
    + intros _. apply IH. intros y Hy. apply H. now right.
Qed.

(** A loop whose every body returns performs the events of the bodies, one
    body after the other. *)
Lemma for_each_ok {A} (xs : list A) (body : A -> M unit)
      (ev : A -> list event) :
  (forall x, In x xs -> body x = (Ok tt, ev x)) ->
  for_each xs body = (Ok tt, flat_map ev xs).
Proof.
  induction xs as [|x rest IH]; intros H; simpl; [reflexivity|].
  rewrite (H x (or_introl eq_refl)), bind_ok.
  rewrite IH by (intros y Hy; apply H; now right).
  reflexivity.
Qed.


Lemma for_each_map {A B} (g : A -> B) (xs : list A) (body : B -> M unit) :
  for_each (map g xs) body = for_each xs (fun x => body (g x)).
Proof.
  induction xs as [|x rest IH]; simpl; [reflexivity|]. now rewrite IH.
Qed.

Lemma for_each_ext {A} (xs : list A) (f g : A -> M unit) :
  (forall x, In x xs -> f x = g x) -> for_each xs f = for_each xs g.
Proof.
  induction xs as [|x rest IH]; intros H; simpl; [reflexivity|].
  rewrite (H x (or_introl eq_refl)).
  rewrite IH by (intros y Hy; apply H; now right).
  reflexivity.
Qed.

End MonadFacts.

(** ** Python sequences *)

Section Sequences.

Lemma nth_error_combine {A B} (l1 : list A) (l2 : list B) (i : nat) a b :
  nth_error (combine l1 l2) i = Some (a, b) <->
  nth_error l1 i = Some a /\ nth_error l2 i = Some b.
Proof.
  revert l2 i; induction l1 as [|x l1 IH]; intros [|y l2] [|i]; simpl;
    try (split; [discriminate | intros [? ?]; discriminate]).
  - split; [intros [= -> ->]; now split | intros [[= ->] [= ->]]; reflexivity].
  - apply IH.
Qed.

Lemma In_combine_seq {A} (xs : list A) (s i : nat) (x : A) :
  In (i, x) (combine (seq s (length xs)) xs) ->
  s <= i /\ nth_error xs (i - s) = Some x.
Proof.
  revert s; induction xs as [|y rest IH]; intros s; simpl; [tauto|].
  intros [[= <- <-]|H].
  - split; [lia|]. now rewrite Nat.sub_diag.
  - apply IH in H. destruct H as [Hle Hn]. split; [lia|].
    replace (i - s) with (S (i - S s)) by lia. exact Hn.
Qed.

Lemma In_enumerate {A} (xs : list A) (i : nat) (x : A) :
  In (i, x) (enumerate xs) -> nth_error xs i = Some x.
Proof.
  intros H. apply In_combine_seq in H. destruct H as [_ H].
  now rewrite Nat.sub_0_r in H.
Qed.

Lemma nth_error_zip3 {A B D} (la : list A) (lb : list B) (lc : list D)
      (i : nat) a b c :
  nth_error (zip3 la lb lc) i = Some (a, (b, c)) <->
  nth_error la i = Some a /\ nth_error lb i = Some b /\ nth_error lc i = Some c.
Proof.
  unfold zip3. rewrite nth_error_combine, nth_error_combine. tauto.
Qed.

End Sequences.

(** ** Strings *)

Section Strings.

Import PyStr Posix.

Lemma string_app_assoc (a b c : string) : ((a ++ b) ++ c = a ++ (b ++ c))%string.
Proof. induction a as [|x a IH]; simpl; [reflexivity|]. now rewrite IH. Qed.

Lemma string_app_length (a b : string) :
  String.length (a ++ b) = String.length a + String.length b.
Proof. induction a as [|x a IH]; simpl; [reflexivity|]. now rewrite IH. Qed.

(** Two splits of one string with tails of one length are the same
    split. *)
Lemma string_app_inv_tail (p1 p2 t1 t2 : string) :
  (p1 ++ t1 = p2 ++ t2)%string -> String.length t1 = String.length t2 ->
  t1 = t2.
Proof.
  revert p2; induction p1 as [|x p1 IH]; intros [|y p2] H Hl; simpl in *.
  - exact H.
  - subst t1. simpl in Hl. rewrite string_app_length in Hl. lia.
  - subst t2. simpl in Hl. rewrite string_app_length in Hl. lia.
  - injection H as _ H. now apply (IH p2).
Qed.

Lemma endswith_spec (suffix s : string) :
  endswith suffix s = true <-> exists p, s = (p ++ suffix)%string.
Proof.
  induction s as [|c s IH]; simpl.
  - rewrite orb_false_r, String.eqb_eq. split.
    + intros ->. now exists ""%string.
    + intros [[|x p] H]; simpl in H; [now symmetry | discriminate].
  - rewrite orb_true_iff, String.eqb_eq, IH. split.
    + intros [->|[p ->]]; [now exists ""%string | now exists (String c p)].
    + intros [[|x p] H]; simpl in H; [left; now symmetry|].
      injection H as -> ->. right. now exists p.
Qed.

(** [os.path.join] keeps its last component at the end. *)
Lemma join_suffix (a b : string) : exists p, join a b = (p ++ b)%string.
Proof.
  unfold join. destruct (String.prefix "/" b); [now exists ""%string|].
  destruct (String.eqb a "" || endswith_slash a); [now exists a|].
  exists (a ++ "/")%string. now rewrite string_app_assoc.
Qed.

Lemma endswith_join (suffix a d tail : string) :
  endswith suffix (join a (d ++ tail)) = true ->
  exists p q, (p ++ tail = q ++ suffix)%string.
Proof.
  intros H. apply endswith_spec in H. destruct H as [q Hq].
  destruct (join_suffix a (d ++ tail)) as [p Hp].
  rewrite Hp, <- string_app_assoc in Hq. now exists (p ++ d)%string, q.
Qed.

(** The three kinds of files [validate] writes are told apart by the end
    of their names. *)
Lemma noise_is_not_pred (a d : string) :
  endswith "_pred.wav" (join a (d ++ "_noise.wav")) = false.
Proof.
  destruct (endswith _ _) eqn:E; [|reflexivity].
  apply endswith_join in E. destruct E as (p & q & E).
  change "_noise.wav"%string with ("_" ++ "noise.wav")%string in E.
  rewrite <- string_app_assoc in E.
  apply string_app_inv_tail in E; [discriminate | reflexivity].
Qed.

Lemma clean_is_not_pred (a d : string) :
  endswith "_pred.wav" (join a (d ++ "_clean.wav")) = false.
Proof.
  destruct (endswith _ _) eqn:E; [|reflexivity].
  apply endswith_join in E. destruct E as (p & q & E).
  change "_clean.wav"%string with ("_" ++ "clean.wav")%string in E.
  rewrite <- string_app_assoc in E.
  apply string_app_inv_tail in E; [discriminate | reflexivity].
Qed.

Lemma noise_is_not_clean (a d : string) :
  endswith "_clean.wav" (join a (d ++ "_noise.wav")) = false.
Proof.
  destruct (endswith _ _) eqn:E; [|reflexivity].
  apply endswith_join in E. destruct E as (p & q & E).
  apply string_app_inv_tail in E; [discriminate | reflexivity].
Qed.

Lemma pred_is_not_clean (a d : string) :
  endswith "_clean.wav" (join a (d ++ "_pred.wav")) = false.
Proof.
  destruct (endswith _ _) eqn:E; [|reflexivity].
  apply endswith_join in E. destruct E as (p & q & E).
  change "_clean.wav"%string with ("_" ++ "clean.wav")%string in E.
  rewrite <- (string_app_assoc q) in E.
  apply string_app_inv_tail in E; [discriminate | reflexivity].
Qed.

(** *** [str.replace] at the start of a path *)

Lemma prefix_app (a b : string) : String.prefix a (a ++ b) = true.
Proof.
  induction a as [|x a IH]; simpl; [now destruct b|].
  destruct (ascii_dec x x) as [_|N]; [exact IH | now elim N].
Qed.

Lemma replace_from_skip (old new s t : string) :
  replace_from old new (String.length s) (s ++ t) = replace_from old new 0 t.
Proof. induction s as [|x s IH]; simpl; [reflexivity | exact IH]. Qed.

(** The directory of a file below a relative [in_dir], with [in_dir]
    removed: the separator that followed [in_dir] is now in front. *)
Lemma replace_after_in_dir (in_dir rest : string) (c : ascii) (s : string) :
  in_dir = String c s -> c <> slash ->
  replace in_dir "" (in_dir ++ String "/" rest)
  = String "/" (replace in_dir "" rest).
Proof.
  intros -> Hc. unfold replace.
  change (String c s ++ String "/" rest)%string
    with (String c (s ++ String "/" rest)).
  cbn [replace_from].
  change (String c (s ++ String "/" rest))
    with (String c s ++ String "/" rest)%string.
  rewrite prefix_app. cbn [String.length Nat.sub append].
  rewrite Nat.sub_0_r, replace_from_skip.
  cbn [replace_from String.prefix].
  destruct (ascii_dec c "/") as [E|_]; [now elim Hc|].
  reflexivity.
Qed.

End Strings.

(** ** Clipping *)

Section Clipping.

Import Sound.
Local Open Scope Q_scope.

Lemma clip_sample_clamped (x : Q) : clamped x (clip_sample (-(1)) 1 x).
Proof.
  unfold clamped, in_range, clip_sample, maximum, minimum.
  destruct (Qle_bool x (-(1))) eqn:E1.
  - apply Qle_bool_iff in E1.
    replace (Qle_bool (-(1)) 1) with true by reflexivity.
    split; [split; [apply Qle_refl | discriminate]|].
    left. now split.
  - assert (H1 : -(1) < x).
    { apply Qnot_le_lt. intros H. apply Qle_bool_iff in H. congruence. }
    destruct (Qle_bool x 1) eqn:E2.
    + apply Qle_bool_iff in E2.
      split; [split; [now apply Qlt_le_weak | assumption]|].
      right; right. split; [|reflexivity].
      split; [now apply Qlt_le_weak | assumption].
    + assert (H2 : 1 < x).
      { apply Qnot_le_lt. intros H. apply Qle_bool_iff in H. congruence. }
      split; [split; [discriminate | apply Qle_refl]|].
      right; left. now split.
Qed.

Lemma clip_clamped (w : wave) : Forall2 clamped w (clip (-(1)) 1 w).
Proof.
  induction w as [|x w IH]; simpl; constructor; [apply clip_sample_clamped|].
  exact IH.
Qed.

End Clipping.

(** ** [run] *)

Section Run.

Import Sound Synthesize Described.

Variable C : collaborators.

(** The one file [run] writes holds the row of the network, low-passed if
    asked, then de-emphasised, then clipped. *)
Lemma run_written audio_file out_path lowpass_freq sample_rate p w sr :
  In (WriteWav p w sr)
     (log_of (run C audio_file out_path lowpass_freq sample_rate)) ->
  exists out_wav,
    hd_error (model C [preemphasis (librosa_load C audio_file sample_rate)])
    = Some out_wav /\
    p = out_path /\ sr = sample_rate /\
    w = postprocess_run C lowpass_freq out_wav.
Proof.
  unfold run, forward, emit, ret. simpl.
  destruct (model C _) as [|out_wav rest]; simpl.
  - intros [H|[]]; discriminate.
  - unfold write_wav. destruct (can_write C out_path); simpl.
    + intros [H|[H|[]]]; [discriminate|]. injection H as <- <- <-.
      exists out_wav. repeat split.
    + intros [H|[]]; discriminate.
Qed.

End Run.
(** ** [validate] *)

Section Validate.

Import PyStr Posix Sound Synthesize Described.

Variable C : collaborators.

Lemma log_write_wav_Forall (P : event -> Prop) (p : string) (w : wave)
      (sr : Z) :
  P (WriteWav p w sr) -> Forall P (log_of (write_wav C p w sr)).
Proof.
  intros H. unfold write_wav. destruct (can_write C p); simpl; auto.
Qed.

(** The first loop never raises; it runs the network once per batch. *)
Lemma infer_loop_eq (loader : list (batch * batch))
      (noise_all clean_all results : list batch) :
  infer_loop C loader noise_all clean_all results =
  (Ok (noise_all ++ map (fun nc => preemp C (fst nc)) loader,
       clean_all ++ map snd loader,
       results ++ map (fun nc => model C (preemp C (fst nc))) loader),
   map (fun nc => Forward (preemp C (fst nc))) loader).
Proof.
  revert noise_all clean_all results.
  induction loader as [|[noise clean] rest IH]; intros na ca rs; simpl.
  - now rewrite !app_nil_r.
  - unfold forward, emit, ret. simpl. rewrite IH. simpl.
    now rewrite <- !app_assoc.
Qed.

Lemma rows_at_enumerate (loader : list (batch * batch)) b bh bn bc i h n c :
  In (b, (bh, (bn, bc)))
     (enumerate (zip3 (map (fun nc => model C (preemp C (fst nc))) loader)
                      (map (fun nc => preemp C (fst nc)) loader)
                      (map snd loader))) ->
  In (i, (h, (n, c))) (enumerate (zip3 bh bn bc)) ->
  rows_at C loader b i h n c.
Proof.
  intros Hb Hi. apply In_enumerate, nth_error_zip3 in Hb.
  apply In_enumerate, nth_error_zip3 in Hi.
  destruct Hb as (H1 & H2 & H3), Hi as (I1 & I2 & I3).
  rewrite nth_error_map in H1, H2, H3.
  destruct (nth_error loader b) as [[nz cl]|] eqn:E; simpl in *; try discriminate.
  injection H1 as <-. injection H2 as <-. injection H3 as <-.
  exists nz, cl. repeat split; assumption.
Qed.

Lemma write_item_Forall (P : event -> Prop) out_dir batch_size b it :
  Forall P (item_events C out_dir batch_size b it) ->
  Forall P (log_of (write_item C out_dir batch_size b it)).
Proof.
  destruct it as [i [h [n c]]]. unfold item_events, item_path, write_item.
  intros H. inversion_clear H as [|? ? H1 H']. inversion_clear H' as [|? ? H2 H''].
  inversion_clear H'' as [|? ? H3 _].
  repeat (apply log_bind_Forall; [|intros _]);
    now apply log_write_wav_Forall.
Qed.

Lemma write_item_ok out_dir batch_size b it :
  (forall p, can_write C p = true) ->
  write_item C out_dir batch_size b it =
  (Ok tt, item_events C out_dir batch_size b it).
Proof.
  intros Hw. destruct it as [i [h [n c]]].
  unfold write_item, item_events, item_path, write_wav.
  now rewrite !Hw.
Qed.

(** Every event of the second loop is one of the three files of an item
    the loader yielded. *)
Lemma write_all_Forall (P : event -> Prop) out_dir batch_size loader :
  (forall b i h n c, rows_at C loader b i h n c ->
     Forall P (item_events C out_dir batch_size b (i, (h, (n, c))))) ->
  Forall P (log_of (write_all_of C out_dir batch_size loader)).
Proof.
  intros H. unfold write_all_of, write_all.
  apply log_for_each_Forall. intros [b [bh [bn bc]]] Hb.
  apply log_for_each_Forall. intros [i [h [n c]]] Hi.
  apply write_item_Forall, H.
  eapply rows_at_enumerate; eassumption.
Qed.

Lemma write_all_ok out_dir batch_size loader :
  (forall p, can_write C p = true) ->
  write_all_of C out_dir batch_size loader =
  (Ok tt,
   flat_map (fun bt : nat * (batch * (batch * batch)) =>
               flat_map (item_events C out_dir batch_size (fst bt))
                        (enumerate (zip3 (fst (snd bt)) (fst (snd (snd bt)))
                                         (snd (snd (snd bt))))))
            (accumulated C loader)).
Proof.
  intros Hw. unfold write_all_of, write_all.
  apply for_each_ok. intros [b [bh [bn bc]]] _. simpl.
  apply for_each_ok. intros it _. now apply write_item_ok.
Qed.

(** [validate] is the directory, then the first loop, then the second. *)
Lemma validate_eq meta_dir out_dir batch_size :
  can_mkdir C out_dir = true ->
  validate C meta_dir out_dir batch_size =
  (outcome (write_all_of C out_dir batch_size
                         (valid_loader C meta_dir batch_size)),
   Makedirs out_dir
     :: map (fun nc => Forward (preemp C (fst nc)))
            (valid_loader C meta_dir batch_size)
     ++ log_of (write_all_of C out_dir batch_size
                             (valid_loader C meta_dir batch_size))).
Proof.
  intros Hm. unfold validate, makedirs. rewrite Hm.
  unfold emit. rewrite bind_ok, infer_loop_eq, bind_ok. reflexivity.
Qed.

Lemma validate_no_dir meta_dir out_dir batch_size :
  can_mkdir C out_dir = false ->
  validate C meta_dir out_dir batch_size = (Raise (OSError out_dir), []).
Proof. intros Hm. unfold validate, makedirs. now rewrite Hm. Qed.

(** Every file [validate] writes is one of the three files of an item. *)
Lemma validate_written (P : event -> Prop) meta_dir out_dir batch_size :
  (forall b i h n c,
     rows_at C (valid_loader C meta_dir batch_size) b i h n c ->
     Forall P (item_events C out_dir batch_size b (i, (h, (n, c))))) ->
  forall e, In e (log_of (validate C meta_dir out_dir batch_size)) ->
            is_write e = true -> P e.
Proof.
  intros H e He Hw. destruct (can_mkdir C out_dir) eqn:Hm.
  - rewrite validate_eq in He by assumption. simpl in He.
    destruct He as [<-|He]; [discriminate|].
    apply in_app_or in He. destruct He as [He|He].
    + apply in_map_iff in He. destruct He as (? & <- & _). discriminate.
    + apply (write_all_Forall P) in H. rewrite Forall_forall in H. now apply H.
  - rewrite validate_no_dir in He by assumption. destruct He.
Qed.

End Validate.

Section ValidateFiles.

Import PyStr Posix Sound Synthesize Described.

Variable C : collaborators.

Lemma combine_map_same {A B D} (f : A -> B) (g : A -> D) (l : list A) :
  combine (map f l) (map g l) = map (fun x => (f x, g x)) l.
Proof. induction l as [|x l IH]; simpl; [reflexivity|]. now rewrite IH. Qed.

Lemma enumerate_split {A} (l : list A) (i : nat) (x : A) :
  nth_error l i = Some x ->
  exists pre post, enumerate l = pre ++ (i, x) :: post.
Proof.
  intros H.
  assert (Hi : i < length l) by (apply nth_error_Some; congruence).
  assert (E : nth_error (enumerate l) i = Some (i, x)).
  { apply nth_error_combine. split; [|exact H].
    rewrite nth_error_seq.
    destruct (Nat.ltb_spec i (length l)) as [Hlt|Hge]; [reflexivity|].
    exfalso. revert Hi Hge. clear. intros. lia. }
  apply nth_error_split in E. destruct E as (pre & post & E & _).
  now exists pre, post.
Qed.

Lemma flat_map_split {A B} (f : A -> list B) (pre post : list A) (x : A) :
  flat_map f (pre ++ x :: post) = flat_map f pre ++ f x ++ flat_map f post.
Proof. now rewrite flat_map_app. Qed.

Lemma log_middle {A} (x : A) (fw X Y T Z W : list A) :
  x :: fw ++ X ++ (Y ++ T ++ Z) ++ W = (x :: fw ++ X ++ Y) ++ T ++ (Z ++ W).
Proof. simpl. now rewrite <- !app_assoc. Qed.

Lemma written_app (l1 l2 : list event) :
  written (l1 ++ l2) = written l1 ++ written l2.
Proof. apply flat_map_app. Qed.

Lemma written_forwards {A} (f : A -> batch) (l : list A) :
  written (map (fun x => Forward (f x)) l) = [].
Proof. induction l as [|x l IH]; simpl; [reflexivity | exact IH]. Qed.

Lemma written_items_length out_dir batch_size b s
      (its : list (wave * (wave * wave))) :
  length (written (flat_map (item_events C out_dir batch_size b)
                            (combine (seq s (length its)) its)))
  = 3 * length its.
Proof.
  revert s; induction its as [|[h [n c]] its IH]; intros s; [reflexivity|].
  cbn [length seq combine flat_map]. rewrite written_app, length_app, IH.
  simpl. lia.
Qed.

Lemma written_batches_length out_dir batch_size s
      (bs : list (batch * (batch * batch))) :
  length
    (written
       (flat_map (fun bt : nat * (batch * (batch * batch)) =>
                    flat_map (item_events C out_dir batch_size (fst bt))
                             (enumerate (zip3 (fst (snd bt))
                                              (fst (snd (snd bt)))
                                              (snd (snd (snd bt))))))
                 (combine (seq s (length bs)) bs)))
  = 3 * list_sum (map (fun z => length (zip3 (fst z) (fst (snd z))
                                             (snd (snd z)))) bs).
Proof.
  revert s; induction bs as [|[bh [bn bc]] bs IH]; intros s; [reflexivity|].
  cbn [length seq combine flat_map map list_sum fst snd].
  rewrite written_app, length_app, IH. unfold enumerate.
  rewrite written_items_length. unfold list_sum. cbn [fold_right]. lia.
Qed.

Lemma validate_ok_log meta_dir out_dir batch_size :
  can_mkdir C out_dir = true -> (forall p, can_write C p = true) ->
  validate C meta_dir out_dir batch_size =
  (Ok tt,
   Makedirs out_dir
     :: map (fun nc => Forward (preemp C (fst nc)))
            (valid_loader C meta_dir batch_size)
     ++ flat_map (fun bt : nat * (batch * (batch * batch)) =>
                    flat_map (item_events C out_dir batch_size (fst bt))
                             (enumerate (zip3 (fst (snd bt))
                                              (fst (snd (snd bt)))
                                              (snd (snd (snd bt))))))
                 (accumulated C (valid_loader C meta_dir batch_size))).
Proof.
  intros Hm Hw. rewrite validate_eq by assumption.
  now rewrite write_all_ok by assumption.
Qed.

End ValidateFiles.

(** C8: when the files can be written, the item at position [item_index] of
    batch [batch_index] leaves three files next to each other in the log,
    named [<idx>_clean.wav], [<idx>_noise.wav] and [<idx>_pred.wav] under
    [out_dir], with [idx = batch_index * batch_size + item_index]; the
    number of files written in all is three times the number of items. *)
Theorem validate_three_files (C : collaborators) (meta_dir out_dir : string)
        (batch_size batch_index item_index : nat)
        (clean_hat noise clean : wave) :
  can_mkdir C out_dir = true ->
  (forall p, can_write C p = true) ->
  Described.rows_at C (valid_loader C meta_dir batch_size)
                    batch_index item_index clean_hat noise clean ->
  let idx := batch_index * batch_size + item_index in
  let log := log_of (Synthesize.validate C meta_dir out_dir batch_size) in
  (exists before after,
     log = before
           ++ [WriteWav (Posix.join out_dir (PyStr.str_of_nat idx ++ "_clean.wav"))
                        clean (SAMPLE_RATE C);
               WriteWav (Posix.join out_dir (PyStr.str_of_nat idx ++ "_noise.wav"))
                        (Sound.inv_preemphasis noise) (SAMPLE_RATE C);
               WriteWav (Posix.join out_dir (PyStr.str_of_nat idx ++ "_pred.wav"))
                        (Sound.clip (-(1))%Q 1%Q (Sound.inv_preemphasis clean_hat))
                        (SAMPLE_RATE C)]
           ++ after) /\
  length (written log)
  = 3 * list_sum (map (Described.items_in C)
                      (valid_loader C meta_dir batch_size)).
Proof.
  intros Hm Hw (nz & cl & Hb & Hh & Hn & Hc) idx log. subst log.
  rewrite validate_ok_log by assumption. unfold log_of, snd. split.
  - assert (Hz : nth_error
                   (zip3 (map (fun nc => model C (preemp C (fst nc)))
                              (valid_loader C meta_dir batch_size))
                         (map (fun nc => preemp C (fst nc))
                              (valid_loader C meta_dir batch_size))
                         (map snd (valid_loader C meta_dir batch_size)))
                   batch_index
                 = Some (model C (preemp C nz), (preemp C nz, cl))).
    { apply nth_error_zip3. rewrite !nth_error_map, Hb. now repeat split. }
    apply enumerate_split in Hz. destruct Hz as (preB & postB & EB).
    assert (Hi : nth_error (zip3 (model C (preemp C nz)) (preemp C nz) cl)
                           item_index
                 = Some (clean_hat, (noise, clean))).
    { apply nth_error_zip3. now repeat split. }
    apply enumerate_split in Hi. destruct Hi as (preI & postI & EI).
    unfold Described.accumulated. rewrite EB, flat_map_split.
    cbn [fst snd]. rewrite EI, flat_map_split.
    eexists _, _. apply log_middle.
  - cbn [written flat_map app]. fold (written). rewrite written_app.
    rewrite written_forwards. cbn [app]. unfold Described.accumulated, enumerate.
    rewrite written_batches_length. f_equal. unfold zip3 at 2.
    rewrite combine_map_same, combine_map_same, map_map. reflexivity.
Qed.

(** C9: a file of [validate] whose name ends in [_clean.wav] holds a row of
    a clean batch exactly as the loader yielded it (no pre-emphasis, no
    de-emphasis, no truncation, no clipping), under the name of its item. *)
Theorem validate_clean_as_loaded (C : collaborators) (meta_dir out_dir : string)
        (batch_size : nat) (p : string) (w : wave) (sr : Z) :
  In (WriteWav p w sr)
     (log_of (Synthesize.validate C meta_dir out_dir batch_size)) ->
  PyStr.endswith "_clean.wav" p = true ->
  exists b i noise clean,
    nth_error (valid_loader C meta_dir batch_size) b = Some (noise, clean) /\
    nth_error clean i = Some w /\
    p = Posix.join out_dir
                   (PyStr.str_of_nat (b * batch_size + i) ++ "_clean.wav").
Proof.
  intros Hin Hp.
  pose (P := fun e : event =>
               match e with
               | WriteWav p w _ =>
                   PyStr.endswith "_clean.wav" p = true ->
                   exists b i noise clean,
                     nth_error (valid_loader C meta_dir batch_size) b
                     = Some (noise, clean) /\
                     nth_error clean i = Some w /\
                     p = Posix.join out_dir
                           (PyStr.str_of_nat (b * batch_size + i) ++ "_clean.wav")
               | _ => True
               end).
  refine (validate_written C P meta_dir out_dir batch_size _ _ Hin eq_refl Hp).
  intros b i h n c (nz & cl & Hb & _ & _ & Hc).
  unfold Described.item_events, Described.item_path, P.
  repeat constructor.
  - intros _. now exists b, i, nz, cl.
  - rewrite noise_is_not_clean. discriminate.
  - rewrite pred_is_not_clean. discriminate.
Qed.

Lemma validate_clean_as_loaded_witness :
  exists b i noise clean,
    nth_error (valid_loader (Demo.world Demo.full_scale Demo.tree []) "meta" 2) b
    = Some (noise, clean) /\
    nth_error clean i = Some [1 # 2; 1 # 2]%Q /\
    "out/1_clean.wav"
    = Posix.join "out" (PyStr.str_of_nat (b * 2 + i) ++ "_clean.wav").
Proof.
  apply (validate_clean_as_loaded (Demo.world Demo.full_scale Demo.tree []) "meta" "out"
                                  2 "out/1_clean.wav" [1 # 2; 1 # 2]%Q 22050).
  - simpl. do 6 right. left. reflexivity.
  - reflexivity.
Defined.

(** C10: a file is written by [validate] only after the directory was made
    and the network has run on every batch of the loader: when the event at
    position [i] of the log is a write, the log starts with the directory
    and one forward pass per batch, and [i] lies beyond them. *)
Theorem validate_writes_after_inference (C : collaborators)
        (meta_dir out_dir : string) (batch_size i : nat) (e : event) :
  nth_error (log_of (Synthesize.validate C meta_dir out_dir batch_size)) i
  = Some e ->
  is_write e = true ->
  firstn (S (length (valid_loader C meta_dir batch_size)))
         (log_of (Synthesize.validate C meta_dir out_dir batch_size))
  = Makedirs out_dir
      :: map (fun nc => Forward (preemp C (fst nc)))
             (valid_loader C meta_dir batch_size)
  /\ length (valid_loader C meta_dir batch_size) < i.
Proof.
  intros Hi He. destruct (can_mkdir C out_dir) eqn:Hm.
  - rewrite validate_eq in * by assumption. unfold log_of, snd in *.
    set (fw := map (fun nc => Forward (preemp C (fst nc)))
                   (valid_loader C meta_dir batch_size)) in *.
    assert (Hfw : length fw = length (valid_loader C meta_dir batch_size))
      by apply length_map.
    split.
    + rewrite <- Hfw. cbn [firstn]. f_equal.
      rewrite firstn_app, Nat.sub_diag, firstn_all. cbn [firstn].
      apply app_nil_r.
    + destruct i as [|i]; [injection Hi as <-; discriminate|].
      cbn [nth_error] in Hi. rewrite <- Hfw.
      destruct (Nat.lt_ge_cases i (length fw)) as [Hlt|Hge]; [|lia].
      rewrite nth_error_app1 in Hi by assumption.
      apply nth_error_In, in_map_iff in Hi. destruct Hi as (? & <- & _).
      discriminate.
  - rewrite validate_no_dir in Hi by assumption. now destruct i.
Qed.

Lemma validate_writes_after_inference_witness :
  firstn 3 (log_of (Synthesize.validate (Demo.world Demo.identity Demo.tree [])
                                        "meta" "out" 2))
  = Makedirs "out"
      :: map (fun nc => Forward (map Sound.preemphasis (fst nc)))
             (valid_loader (Demo.world Demo.identity Demo.tree []) "meta" 2)
  /\ 2 < 3.
Proof.
  apply (validate_writes_after_inference
           (Demo.world Demo.identity Demo.tree []) "meta" "out" 2 3
           (WriteWav "out/0_clean.wav" [3 # 2]%Q 22050)); reflexivity.
Defined.

Lemma validate_three_files_witness :
  exists before after,
    log_of (Synthesize.validate (Demo.world Demo.identity Demo.tree []) "meta" "out" 2)
    = before
      ++ [WriteWav "out/1_clean.wav" [1 # 2; 1 # 2]%Q 22050;
          WriteWav "out/1_noise.wav" (Sound.inv_preemphasis [1 # 2]%Q) 22050;
          WriteWav "out/1_pred.wav"
                   (Sound.clip (-(1))%Q 1%Q (Sound.inv_preemphasis [1 # 2]%Q))
                   22050]
      ++ after.
Proof.
  apply (validate_three_files (Demo.world Demo.identity Demo.tree []) "meta" "out" 2 0 1
                              [1 # 2]%Q [1 # 2]%Q [1 # 2; 1 # 2]%Q).
  - reflexivity.
  - intros p. reflexivity.
  - eexists _, _. repeat split; reflexivity.
Defined.

(** C3 (amended): the file [run] writes, and every file of [validate] whose
    name ends in [_pred.wav], holds the de-emphasised output of the network
    with every sample clamped to [[-1, 1]]: kept when inside, replaced by
    the nearer bound when outside. *)
Theorem predicted_output_clamped (C : collaborators) (p : string) (w : wave)
        (sr : Z) :
  (forall audio_file out_path lowpass_freq sample_rate,
      In (WriteWav p w sr)
         (log_of (Synthesize.run C audio_file out_path lowpass_freq
                                 sample_rate)) ->
      exists out_wav,
        hd_error (model C [Sound.preemphasis
                             (librosa_load C audio_file sample_rate)])
        = Some out_wav /\
        Forall2 Sound.clamped
                (Sound.inv_preemphasis
                   (if (lowpass_freq =? 0)%Z then out_wav
                    else lowpass C out_wav lowpass_freq))
                w) /\
  (forall meta_dir out_dir batch_size,
      In (WriteWav p w sr)
         (log_of (Synthesize.validate C meta_dir out_dir batch_size)) ->
      PyStr.endswith "_pred.wav" p = true ->
      exists b i clean_hat noise clean,
        Described.rows_at C (valid_loader C meta_dir batch_size) b i
                          clean_hat noise clean /\
        Forall2 Sound.clamped (Sound.inv_preemphasis clean_hat) w).
Proof.
  split.
  - intros audio_file out_path lowpass_freq sample_rate Hin.
    apply run_written in Hin. destruct Hin as (out_wav & Hout & _ & _ & ->).
    exists out_wav. split; [exact Hout|]. apply clip_clamped.
  - intros meta_dir out_dir batch_size Hin Hp.
    pose (P := fun e : event =>
                 match e with
                 | WriteWav p w _ =>
                     PyStr.endswith "_pred.wav" p = true ->
                     exists b i clean_hat noise clean,
                       Described.rows_at C (valid_loader C meta_dir batch_size)
                                         b i clean_hat noise clean /\
                       Forall2 Sound.clamped (Sound.inv_preemphasis clean_hat) w
                 | _ => True
                 end).
    refine (validate_written C P meta_dir out_dir batch_size _ _ Hin eq_refl Hp).
    intros b i h n c Hrows.
    unfold Described.item_events, Described.item_path, P.
    repeat constructor.
    + rewrite clean_is_not_pred. discriminate.
    + rewrite noise_is_not_pred. discriminate.
    + intros _. exists b, i, h, n, c. split; [exact Hrows | apply clip_clamped].
Qed.

Lemma predicted_output_clamped_witness :
  exists b i clean_hat noise clean,
    Described.rows_at (Demo.world Demo.full_scale Demo.tree [])
                      (valid_loader (Demo.world Demo.full_scale Demo.tree []) "meta" 2)
                      b i clean_hat noise clean /\
    Forall2 Sound.clamped (Sound.inv_preemphasis clean_hat) [1; 1]%Q.
Proof.
  apply (proj2 (predicted_output_clamped (Demo.world Demo.full_scale Demo.tree [])
                                         "out/0_pred.wav" [1; 1]%Q 22050)
               "meta" "out" 2).
  - simpl. do 5 right. left. reflexivity.
  - reflexivity.
Defined.

(** C3, as stated, fails: [validate] writes the clean and the noisy file
    without clipping, and so does the worker of [test_dir] with every file;
    a clean sample of 3/2 reaches the disk, and a network that answers 1
    everywhere is de-emphasised to 197/100 and beyond, and written. *)
Lemma unclipped_files_counterexample :
  (In (WriteWav "out/0_clean.wav" [3 # 2]%Q 22050)
      (log_of (Synthesize.validate (Demo.world Demo.full_scale Demo.tree [])
                                   "meta" "out" 2)) /\
   ~ Sound.in_range (3 # 2)%Q) /\
  (In (WriteWav "out/a.wav"
                [1; 1 + (97 # 100) * 1;
                 1 + (97 # 100) * (1 + (97 # 100) * 1)]%Q 22050)
      (log_of (Synthesize.test_dir (Demo.world Demo.full_scale Demo.flat [])
                                   "in" "out" 22050 2)) /\
   ~ Sound.in_range (1 + (97 # 100) * 1)%Q).
Proof.
  split; split.
  - simpl. do 3 right. left. reflexivity.
  - intros [_ H]. revert H. unfold Qle. simpl. lia.
  - vm_compute. do 3 right. left. reflexivity.
  - intros [_ H]. revert H. unfold Qle. simpl. lia.
Qed.

(** C5 (amended): the file [run] writes is at [out_path] and holds the row
    the network returned for the pre-emphasised recording, first low-passed
    (only when the cutoff is not zero), then de-emphasised, and clipped
    last. *)
Theorem run_postprocessing_order (C : collaborators)
        (audio_file out_path : string) (lowpass_freq sample_rate : Z)
        (p : string) (w : wave) (sr : Z) :
  In (WriteWav p w sr)
     (log_of (Synthesize.run C audio_file out_path lowpass_freq sample_rate)) ->
  exists out_wav,
    hd_error (model C [Sound.preemphasis
                         (librosa_load C audio_file sample_rate)])
    = Some out_wav /\
    p = out_path /\
    w = Sound.clip (-(1))%Q 1%Q
          (Sound.inv_preemphasis
             (if (lowpass_freq =? 0)%Z then out_wav
              else lowpass C out_wav lowpass_freq)).
Proof.
  intros Hin. apply run_written in Hin.
  destruct Hin as (out_wav & Hout & -> & _ & ->).
  exists out_wav. repeat split. exact Hout.
Qed.

Lemma run_postprocessing_order_witness :
  exists out_wav,
    hd_error (Demo.identity [Sound.preemphasis (Demo.audio "x.wav" 22050)])
    = Some out_wav /\
    "o.wav" = "o.wav" /\
    Sound.clip (-(1))%Q 1%Q
               (Sound.inv_preemphasis
                  (Demo.smooth3 (hd [] (Demo.identity
                     [Sound.preemphasis (Demo.audio "x.wav" 22050)])) 4000))
    = Sound.clip (-(1))%Q 1%Q
                 (Sound.inv_preemphasis (Demo.smooth3 out_wav 4000)).
Proof.
  apply (run_postprocessing_order (Demo.world Demo.identity Demo.tree []) "x.wav" "o.wav"
                                  4000 22050 "o.wav" _ 22050).
  simpl. right. left. reflexivity.
Defined.

(** C5, as stated, fails: with a zero-phase smoothing filter as low-pass and
    a network that returns its input, the file [run] writes is not the one
    the order "de-emphasis, then low-pass, then clipping" gives. *)
Lemma run_order_counterexample :
  exists out_wav w,
    hd_error (model (Demo.world Demo.identity Demo.tree [])
                    [Sound.preemphasis (Demo.audio "x.wav" 22050)])
    = Some out_wav /\
    In (WriteWav "o.wav" w 22050)
       (log_of (Synthesize.run (Demo.world Demo.identity Demo.tree []) "x.wav" "o.wav"
                               4000 22050)) /\
    ~ Sound.wave_eq w (Described.postprocess_spec_order
                         (Demo.world Demo.identity Demo.tree []) 4000 out_wav).
Proof.
  eexists _, _. split; [reflexivity|]. split.
  - simpl. right. left. reflexivity.
  - intros H. vm_compute in H. inversion H as [|? ? ? ? Hx _]. discriminate.
Qed.

(** ** The data loader of [test_dir] *)

Section Batching.

Variable batch_size : nat.
Hypothesis batch_size_pos : 0 < batch_size.

(** The sampler fills the batch it is gathering, yields it, and goes on
    from an empty one. *)
Lemma batch_sampler_fill (m c s : nat) :
  c < batch_size -> 0 < c + m ->
  batch_sampler batch_size (seq s c) (seq (s + c) m)
  = seq s (Nat.min batch_size (c + m))
      :: batch_sampler batch_size [] (seq (s + batch_size)
                                          (c + m - batch_size)).
Proof.
  revert c; induction m as [|m IH]; intros c Hc Hpos.
  - rewrite Nat.add_0_r in *. simpl.
    replace (Nat.min batch_size c) with c by lia.
    replace (c - batch_size) with 0 by lia. simpl.
    destruct c as [|c]; [lia | reflexivity].
  - cbn [seq batch_sampler].
    replace (seq s c ++ [s + c]) with (seq s (S c))
      by (now rewrite seq_S).
    rewrite length_seq.
    destruct (Nat.eqb_spec (S c) batch_size) as [E|E].
    + replace (Nat.min batch_size (c + S m)) with (S c) by lia.
      replace (c + S m - batch_size) with m by lia.
      now replace (s + batch_size) with (S (s + c)) by lia.
    + replace (S (s + c)) with (s + S c) by lia.
      rewrite IH by lia.
      now replace (S c + m) with (c + S m) by lia.
Qed.

Lemma batch_count_succ (m : nat) :
  0 < m ->
  (m + batch_size - 1) / batch_size
  = S ((m - batch_size + batch_size - 1) / batch_size).
Proof.
  intros Hm. destruct (Nat.le_gt_cases batch_size m) as [Hle|Hlt].
  - replace (m + batch_size - 1)
      with ((m - batch_size + batch_size - 1) + 1 * batch_size) by lia.
    rewrite Nat.div_add by lia. lia.
  - replace (m - batch_size) with 0 by lia. simpl.
    rewrite (Nat.div_small (batch_size - 1)) by lia.
    replace (m + batch_size - 1) with ((m - 1) + 1 * batch_size) by lia.
    rewrite Nat.div_add by lia. rewrite Nat.div_small by lia. reflexivity.
Qed.

(** Batch [k] of the sequential sampler holds the indices from
    [k * batch_size], [batch_size] of them or what is left. *)
Lemma batch_sampler_seq (m s : nat) :
  batch_sampler batch_size [] (seq s m)
  = map (fun k => seq (s + k * batch_size)
                      (Nat.min batch_size (m - k * batch_size)))
        (seq 0 ((m + batch_size - 1) / batch_size)).
Proof.
  revert s. induction m as [m IH] using lt_wf_ind. intros s.
  destruct m as [|m'].
  - simpl. rewrite Nat.div_small by lia. reflexivity.
  - set (m := S m') in *.
    pose proof (batch_sampler_fill m 0 s batch_size_pos) as F.
    rewrite Nat.add_0_r in F. cbn [seq] in F. cbn [plus] in F.
    rewrite F by lia. clear F.
    rewrite batch_count_succ by lia. cbn [seq map].
    rewrite Nat.mul_0_l, Nat.add_0_r, Nat.sub_0_r. f_equal.
    rewrite IH by lia. rewrite <- seq_shift, map_map.
    apply map_ext. intros k. f_equal; [lia|]. f_equal. lia.
Qed.

(** [xs[a : a + batch_size]] by its indices. *)
Lemma slice_by_index {A} (xs : list A) (d : A) (a : nat) :
  map (fun i => nth i xs d)
      (seq a (Nat.min batch_size (length xs - a)))
  = slice xs a (a + batch_size).
Proof.
  unfold slice. replace (a + batch_size - a) with batch_size by lia.
  apply (nth_ext _ _ d d).
  - rewrite length_map, length_seq, length_firstn, length_skipn. reflexivity.
  - intros i Hi. rewrite length_map, length_seq in Hi.
    rewrite (nth_indep _ d (nth 0 xs d))
      by (now rewrite length_map, length_seq).
    rewrite (map_nth (fun i => nth i xs d) _ 0), seq_nth by assumption.
    rewrite nth_firstn.
    destruct (Nat.ltb_spec i batch_size) as [_|Hge]; [|lia].
    now rewrite nth_skipn.
Qed.

End Batching.

(** ** [test_dir] *)

Section TestDir.

Import PyStr Posix Sound Synthesize Described.

Variable C : collaborators.
Variables in_dir out_dir : string.
Variable sample_rate : Z.

Local Abbreviation wav_list := (glob_wav C in_dir).
Local Abbreviation load f := (librosa_load C f sample_rate).

(** *** Collation *)

Lemma max_len_ge {A} (rows : list (list A)) (row : list A) :
  In row rows -> length row <= Collate.max_len rows.
Proof.
  unfold Collate.max_len. induction rows as [|r rows IH]; simpl; [tauto|].
  intros [->|H]; [lia|]. apply IH in H. lia.
Qed.

Lemma pad_to_length {A} (zero : A) (L : nat) (row : list A) :
  length row <= L -> length (Collate.pad_to zero L row) = L.
Proof.
  intros H. unfold Collate.pad_to. rewrite length_app, repeat_length. lia.
Qed.

Lemma pad_rows_lengths {A} (zero : A) (rows : list (list A)) :
  Forall (fun r => length r = Collate.max_len rows)
         (Collate.pad_rows zero rows).
Proof.
  unfold Collate.pad_rows. apply Forall_map, Forall_forall.
  intros r Hr. apply pad_to_length. now apply max_len_ge.
Qed.

(** The lengths are arrays of one element: nothing is padded. *)
Lemma pad_rows_singletons {A B} (zero : B) (g : A -> B) (l : list A) :
  Collate.pad_rows zero (map (fun x => [g x]) l) = map (fun x => [g x]) l.
Proof.
  unfold Collate.pad_rows. rewrite map_map. apply map_ext_in.
  intros x Hx. unfold Collate.pad_to.
  assert (H : Collate.max_len (map (fun x => [g x]) l) <= 1).
  { clear. unfold Collate.max_len.
    induction l as [|y l IH]; cbn [map fold_right length]; lia. }
  cbn [length]. destruct (Collate.max_len _) as [|[|n]]; [reflexivity..|lia].
Qed.

Lemma collate_lens (files : list string) :
  snd (Collate.pad_collate_fn (map (item_of C sample_rate) files))
  = map (fun f => [length (load f)]) files.
Proof.
  unfold Collate.pad_collate_fn, item_of. cbn [snd]. rewrite map_map.
  cbn [snd]. apply pad_rows_singletons.
Qed.

Lemma batch_of_eq (files : list string) :
  batch_of C sample_rate files
  = Collate.pad_rows 0%Q (map (fun f => preemphasis (load f)) files).
Proof.
  unfold batch_of, Collate.pad_collate_fn, item_of. cbn [fst].
  now rewrite map_map.
Qed.

(** *** The loop *)

Lemma zip3_lens {A} (rows : list A) (files : list string) :
  zip3 rows files (map (fun f => [length (load f)]) files)
  = map (fun rf => (fst rf, (snd rf, [length (load (snd rf))])))
        (combine rows files).
Proof.
  unfold zip3. revert rows; induction files as [|f files IH];
    intros [|r rows]; simpl; try reflexivity.
  now rewrite IH.
Qed.

Section Loop.

Variable batch_size : nat.
Hypothesis batch_size_pos : 0 < batch_size.

Lemma test_dir_batch_eq (k : nat) :
test_dir_batch C in_dir out_dir sample_rate batch_size wav_list
  (Collate.pad_collate_fn
     (map (item_of C sample_rate) (files_of_batch wav_list batch_size k)),
   k * batch_size)
= batch_run C in_dir out_dir sample_rate
            (files_of_batch wav_list batch_size k).
Proof.
unfold test_dir_batch, batch_run. cbn [fst snd].
rewrite collate_lens. fold (files_of_batch wav_list batch_size k).
fold (batch_of C sample_rate (files_of_batch wav_list batch_size k)).
destruct (forward C _) as [[hat|e] l]; [|reflexivity].
rewrite !bind_ok. f_equal; [f_equal|f_equal; f_equal];
  unfold parallel; rewrite zip3_lens, !for_each_map;
  apply for_each_ext; intros [r f] _; unfold worker_task;
  cbn [fst snd int_of_array]; apply bind_lift_ok.
Qed.

Lemma getitem_eq (idxs : list nat) :
map (getitem C wav_list sample_rate) idxs
= map (item_of C sample_rate) (map (fun i => nth i wav_list ""%string) idxs).
Proof. now rewrite map_map. Qed.

(** Batch [k] of the loader is the collation of the items of the files
  [wav_list[k * batch_size : (k+1) * batch_size]]. *)
Lemma data_loader_eq :
data_loader C wav_list sample_rate batch_size
= map (fun k => Collate.pad_collate_fn
                  (map (item_of C sample_rate)
                       (files_of_batch wav_list batch_size k)))
      (seq 0 (batch_count (length wav_list) batch_size)).
Proof.
unfold data_loader. rewrite batch_sampler_seq by assumption.
fold (batch_count (length wav_list) batch_size).
rewrite map_map. apply map_ext. intros k.
rewrite getitem_eq. cbn [plus].
now rewrite (slice_by_index batch_size) by assumption.
Qed.

(** [test_dir] is the directory, then one [batch_run] per batch, batch [k]
  on the files [wav_list[k * batch_size : (k+1) * batch_size]]. *)
Lemma test_dir_eq :
test_dir C in_dir out_dir sample_rate batch_size
= (makedirs C out_dir ;;;
   for_each (seq 0 (batch_count (length wav_list) batch_size))
            (fun k => batch_run C in_dir out_dir sample_rate
                                (files_of_batch wav_list batch_size k))).
Proof.
unfold test_dir.
destruct (Nat.eqb_spec batch_size 0) as [E|_]; [lia|].
assert (E : for_each
              (combine (data_loader C wav_list sample_rate batch_size)
                       (range_step (length wav_list) batch_size))
              (test_dir_batch C in_dir out_dir sample_rate batch_size
                              wav_list)
            = for_each (seq 0 (batch_count (length wav_list) batch_size))
                (fun k => batch_run C in_dir out_dir sample_rate
                            (files_of_batch wav_list batch_size k))).
{ unfold data_loader, range_step.
  rewrite batch_sampler_seq by assumption.
  fold (batch_count (length wav_list) batch_size).
  rewrite map_map, combine_map_same, for_each_map.
  apply for_each_ext. intros k _.
  rewrite getitem_eq. cbn [plus].
  rewrite (slice_by_index batch_size) by assumption.
  apply test_dir_batch_eq. }
unfold bind. destruct (makedirs C out_dir) as [[[]|e] l]; [|reflexivity].
now rewrite E.
Qed.

End Loop.

(** *** The worker *)

Lemma squeeze_long (w : wave) : length w <> 1 -> squeeze w = Arr1 w.
Proof.
  destruct w as [|x [|y w]]; simpl; intros H; try reflexivity. lia.
Qed.

Lemma test_worker_ok (row : wave) (f : string) (l : nat) :
  can_mkdir C (file_out_dir f in_dir out_dir) = true ->
  can_write C (out_file_path f in_dir out_dir) = true ->
  length (firstn l row) <> 1 ->
  test_worker C row f in_dir out_dir sample_rate l
  = (Ok tt,
     [Makedirs (file_out_dir f in_dir out_dir);
      WriteWav (out_file_path f in_dir out_dir)
               (inv_preemphasis (firstn l row)) sample_rate]).
Proof.
  unfold out_file_path, file_out_dir, test_worker, makedirs, write_wav.
  intros Hm Hw Hl. rewrite Hm, (squeeze_long _ Hl). cbn. now rewrite Hw.
Qed.


(** *** One batch *)

Hypothesis shape : same_shape C.

Lemma preemphasis_length (x : wave) : length (preemphasis x) = length x.
Proof.
  destruct x as [|s rest]; simpl; [reflexivity|].
  now rewrite preemphasis_tail_length.
Qed.

Lemma inv_preemphasis_length (y : wave) : length (inv_preemphasis y) = length y.
Proof.
  destruct y as [|s rest]; simpl; [reflexivity|].
  now rewrite inv_preemphasis_tail_length.
Qed.

Lemma same_lengths_Forall {A} (L : nat) (l1 l2 : list (list A)) :
  map (@length A) l1 = map (@length A) l2 ->
  Forall (fun r => length r = L) l2 -> Forall (fun r => length r = L) l1.
Proof.
  revert l2; induction l1 as [|r l1 IH]; intros [|r2 l2] E H;
    try discriminate; constructor.
  - injection E as E _. inversion_clear H. congruence.
  - injection E as _ E. inversion_clear H. now apply (IH l2).
Qed.

Lemma output_rows_count (files : list string) :
  length (model C (batch_of C sample_rate files)) = length files.
Proof.
  rewrite <- (length_map (@length sample)), shape, length_map, batch_of_eq.
  unfold Collate.pad_rows. now rewrite !length_map.
Qed.

Lemma output_rows_length (files : list string) :
  Forall (fun r => length r
                   = Collate.max_len (map (fun f => preemphasis (load f))
                                          files))
         (model C (batch_of C sample_rate files)).
Proof.
  eapply same_lengths_Forall; [apply shape|].
  rewrite batch_of_eq. apply pad_rows_lengths.
Qed.

(** The row is at least as long as the recording: the truncation gives the
    recorded length. *)
Lemma truncated_length (files : list string) (r : wave) (f : string) :
  In (r, f) (combine (model C (batch_of C sample_rate files)) files) ->
  length (firstn (length (load f)) r) = length (load f).
Proof.
  intros H. rewrite length_firstn.
  pose proof (in_combine_l _ _ _ _ H) as Hr.
  pose proof (in_combine_r _ _ _ _ H) as Hf.
  pose proof (output_rows_length files) as HL.
  rewrite Forall_forall in HL. rewrite (HL r Hr).
  assert (Hle : length (preemphasis (load f))
                <= Collate.max_len (map (fun f => preemphasis (load f)) files)).
  { apply max_len_ge. apply in_map_iff. now exists f. }
  rewrite preemphasis_length in Hle. lia.
Qed.

Lemma batch_run_ok (files : list string) :
  Forall (file_ok C in_dir out_dir sample_rate) files ->
  batch_run C in_dir out_dir sample_rate files
  = (Ok tt, batch_events C in_dir out_dir sample_rate files).
Proof.
  intros Hok. unfold batch_run, batch_events, forward, emit, ret.
  rewrite bind_ok. cbn [outcome log_of fst snd app]. rewrite bind_ok.
  rewrite (for_each_ok _ _ (worker_events C in_dir out_dir sample_rate)).
  - reflexivity.
  - intros [r f] Hin. cbn [fst snd].
    rewrite Forall_forall in Hok.
    destruct (Hok f (in_combine_r _ _ _ _ Hin)) as (Hm & Hw & Hl).
    apply test_worker_ok; try assumption.
    now rewrite (truncated_length files).
Qed.



End TestDir.

Section TestDirRun.

Import PyStr Posix Sound Synthesize Described.

Variable C : collaborators.
Variables in_dir out_dir : string.
Variable sample_rate : Z.
Variable batch_size : nat.
Hypothesis batch_size_pos : 0 < batch_size.
Hypothesis shape : same_shape C.

Local Abbreviation wav_list := (glob_wav C in_dir).
Local Abbreviation load f := (librosa_load C f sample_rate).
Local Abbreviation ok := (file_ok C in_dir out_dir sample_rate).

(** *** Slices *)

Lemma firstn_add_skipn {A} (a b : nat) (l : list A) :
  firstn a l ++ firstn b (skipn a l) = firstn (a + b) l.
Proof.
  revert l; induction a as [|a IH]; intros [|x l]; simpl; try reflexivity.
  - now rewrite firstn_nil.
  - now rewrite IH.
Qed.

(** The first [k] batches are the first [k * batch_size] files. *)
Lemma flat_files_firstn (l : list string) (k : nat) :
  flat_map (files_of_batch l batch_size) (seq 0 k)
  = firstn (k * batch_size) l.
Proof.
  induction k as [|k IH]; [reflexivity|].
  rewrite seq_S, flat_map_app, IH. cbn [flat_map plus].
  rewrite app_nil_r. unfold files_of_batch, slice.
  replace (k * batch_size + batch_size - k * batch_size)
    with batch_size by lia.
  rewrite firstn_add_skipn. f_equal. lia.
Qed.

Lemma batch_count_covers (n : nat) :
  n <= batch_count n batch_size * batch_size.
Proof.
  unfold batch_count.
  pose proof (Nat.div_mod_eq (n + batch_size - 1) batch_size) as E.
  pose proof (Nat.mod_upper_bound (n + batch_size - 1) batch_size) as U.
  nia.
Qed.

Lemma batch_count_gt (n k : nat) :
  k * batch_size < n -> k < batch_count n batch_size.
Proof.
  intros H. unfold batch_count.
  apply (Nat.div_le_lower_bound _ batch_size (S k)); lia.
Qed.

(** The batches together are the files, in their order. *)
Lemma files_concat (l : list string) :
  flat_map (files_of_batch l batch_size)
           (seq 0 (batch_count (length l) batch_size))
  = l.
Proof.
  rewrite flat_files_firstn. apply firstn_all2, batch_count_covers.
Qed.

Lemma In_files_of_batch (l : list string) (k : nat) (f : string) :
  In f (files_of_batch l batch_size k) -> In f l.
Proof.
  unfold files_of_batch, slice. intros H.
  rewrite <- (firstn_skipn (k * batch_size) l). apply in_or_app. right.
  rewrite <- (firstn_skipn (k * batch_size + batch_size - k * batch_size)
                           (skipn (k * batch_size) l)).
  apply in_or_app. now left.
Qed.

Lemma files_of_batch_length (l : list string) (k : nat) :
  length (files_of_batch l batch_size k)
  = Nat.min batch_size (length l - k * batch_size).
Proof.
  unfold files_of_batch, slice. rewrite length_firstn, length_skipn. lia.
Qed.

Lemma files_of_batch_nth (l : list string) (k i : nat) :
  i < batch_size ->
  nth_error (files_of_batch l batch_size k) i
  = nth_error l (k * batch_size + i).
Proof.
  intros Hi. unfold files_of_batch, slice.
  rewrite nth_error_firstn.
  destruct (Nat.ltb_spec i (k * batch_size + batch_size - k * batch_size));
    [|lia].
  apply nth_error_skipn.
Qed.

(** *** The whole run *)

Lemma written_flat_map {A} (F : A -> list event) (l : list A) :
  written (flat_map F l) = flat_map (fun x => written (F x)) l.
Proof.
  induction l as [|x l IH]; simpl; [reflexivity|].
  now rewrite written_app, IH.
Qed.

Lemma written_batch_events (files : list string) :
  written (batch_events C in_dir out_dir sample_rate files)
  = batch_written C in_dir out_dir sample_rate files.
Proof.
  unfold batch_events, batch_written.
  set (l := combine _ files).
  change (written (flat_map (worker_events C in_dir out_dir sample_rate) l)
          = map (fun rf : wave * string =>
                   (out_file_path (snd rf) in_dir out_dir,
                    inv_preemphasis
                      (firstn (length (load (snd rf))) (fst rf)))) l).
  induction l as [|rf l IH]; [reflexivity|].
  cbn [flat_map map]. rewrite written_app, IH. reflexivity.
Qed.

Lemma batch_written_length (files : list string) :
  length (batch_written C in_dir out_dir sample_rate files) = length files.
Proof.
  unfold batch_written.
  rewrite length_map, length_combine, output_rows_count by assumption.
  apply Nat.min_id.
Qed.

(** When nothing fails, [test_dir] makes the directory and runs the
    batches one after the other. *)
Lemma test_dir_ok :
  can_mkdir C out_dir = true -> Forall ok wav_list ->
  test_dir C in_dir out_dir sample_rate batch_size
  = (Ok tt,
     Makedirs out_dir
       :: flat_map (fun k => batch_events C in_dir out_dir sample_rate
                               (files_of_batch wav_list batch_size k))
                   (seq 0 (batch_count (length wav_list) batch_size))).
Proof.
  intros Hm Hok. rewrite test_dir_eq by assumption.
  unfold makedirs. rewrite Hm. unfold emit. rewrite bind_ok.
  rewrite (for_each_ok _ _
             (fun k => batch_events C in_dir out_dir sample_rate
                         (files_of_batch wav_list batch_size k))).
  - reflexivity.
  - intros k _. apply batch_run_ok; try assumption.
    rewrite Forall_forall in *. intros f Hf. apply Hok.
    now apply In_files_of_batch in Hf.
Qed.

Lemma test_dir_ok_written :
  can_mkdir C out_dir = true -> Forall ok wav_list ->
  written (log_of (test_dir C in_dir out_dir sample_rate batch_size))
  = flat_map (fun k => batch_written C in_dir out_dir sample_rate
                         (files_of_batch wav_list batch_size k))
             (seq 0 (batch_count (length wav_list) batch_size)).
Proof.
  intros Hm Hok. rewrite test_dir_ok by assumption.
  unfold log_of, snd. cbn [written flat_map app]. fold written.
  rewrite written_flat_map. apply flat_map_ext. intros k.
  apply written_batch_events.
Qed.

(** Item [i] of batch [k] in a list made of one chunk per batch, the
    chunks before [k] full. *)
Lemma nth_error_chunks {A} (F : nat -> list A) (k i : nat) :
  forall s n,
    (forall j, j < k -> length (F (s + j)) = batch_size) ->
    k < n -> i < length (F (s + k)) ->
    nth_error (flat_map F (seq s n)) (k * batch_size + i)
    = nth_error (F (s + k)) i.
Proof.
  induction k as [|k IH]; intros s [|n] Hfull Hk Hi; try lia.
  - cbn [seq flat_map]. rewrite Nat.add_0_r in *.
    now rewrite nth_error_app1 by assumption.
  - cbn [seq flat_map].
    pose proof (Hfull 0 ltac:(lia)) as H0. rewrite Nat.add_0_r in H0.
    rewrite nth_error_app2 by (rewrite H0; lia).
    replace (S k * batch_size + i - length (F s))
      with (k * batch_size + i) by (rewrite H0; lia).
    replace (s + S k) with (S s + k) in * by lia.
    apply IH; try assumption; [|lia].
    intros j Hj. replace (S s + j) with (s + S j) by lia.
    apply Hfull. lia.
Qed.

Lemma map_snd_combine {A B} (l1 : list A) (l2 : list B) :
  length l1 = length l2 -> map snd (combine l1 l2) = l2.
Proof.
  revert l2; induction l1 as [|x l1 IH]; intros [|y l2] H; simpl in *;
    try discriminate; [reflexivity|].
  injection H as H. now rewrite IH.
Qed.

Lemma map_flat_map {A B D} (g : B -> D) (F : A -> list B) (l : list A) :
  map g (flat_map F l) = flat_map (fun x => map g (F x)) l.
Proof.
  induction l as [|x l IH]; simpl; [reflexivity|].
  now rewrite map_app, IH.
Qed.

Lemma flat_map_map_files {D} (h : string -> D) (k : nat) :
  flat_map (fun j => map h (files_of_batch wav_list batch_size j)) (seq 0 k)
  = map h (firstn (k * batch_size) wav_list).
Proof. now rewrite <- map_flat_map, flat_files_firstn. Qed.

(** One batch writes, for each of its files and in their order, a
    waveform of the recorded length at the path of the file. *)
Lemma batch_written_lengths (files : list string) :
  map (fun pw : string * wave => (fst pw, length (snd pw)))
      (batch_written C in_dir out_dir sample_rate files)
  = map (fun f => (out_file_path f in_dir out_dir, length (load f))) files.
Proof.
  unfold batch_written. rewrite map_map.
  transitivity
    (map (fun rf : wave * string =>
            (out_file_path (snd rf) in_dir out_dir, length (load (snd rf))))
         (combine (model C (batch_of C sample_rate files)) files)).
  - apply map_ext_in. intros [r f] Hin. cbn [fst snd].
    now rewrite inv_preemphasis_length,
      (truncated_length C sample_rate shape files).
  - rewrite <- (map_map snd
                  (fun f => (out_file_path f in_dir out_dir, length (load f)))).
    now rewrite map_snd_combine by (now apply output_rows_count).
Qed.

Lemma batch_written_paths (files : list string) :
  map fst (batch_written C in_dir out_dir sample_rate files)
  = map (fun f => out_file_path f in_dir out_dir) files.
Proof.
  unfold batch_written. rewrite map_map. cbn [fst].
  rewrite <- (map_map snd (fun f => out_file_path f in_dir out_dir)).
  now rewrite map_snd_combine by (now apply output_rows_count).
Qed.





End TestDirRun.

(** ** [test_dir]: lengths, order, paths *)

Lemma same_shape_identity (files bad : list string) :
  Described.same_shape (Demo.world Demo.identity files bad).
Proof. intros b. reflexivity. Qed.

Lemma same_shape_full_scale (files bad : list string) :
  Described.same_shape (Demo.world Demo.full_scale files bad).
Proof.
  intros b. cbn. unfold Demo.full_scale. rewrite map_map.
  apply map_ext. intros r. apply length_map.
Qed.

(** C2: in directory mode, when nothing fails and the network keeps the shape
    of its input, the files written are, in the order of discovery, one per
    recording, each with exactly as many samples as its recording (the
    padded output is cut to the recorded length before de-emphasis). *)
Theorem test_dir_lengths (C : collaborators) (in_dir out_dir : string)
        (sample_rate : Z) (batch_size : nat) :
  0 < batch_size ->
  Described.same_shape C ->
  can_mkdir C out_dir = true ->
  Forall (Described.file_ok C in_dir out_dir sample_rate) (glob_wav C in_dir) ->
  outcome (Synthesize.test_dir C in_dir out_dir sample_rate batch_size) = Ok tt /\
  map (fun pw : string * wave => (fst pw, length (snd pw)))
      (written (log_of (Synthesize.test_dir C in_dir out_dir sample_rate
                                            batch_size)))
  = map (fun f => (Described.out_file_path f in_dir out_dir,
                   length (librosa_load C f sample_rate)))
        (glob_wav C in_dir).
Proof.
  intros Hb Hs Hm Hok. split.
  - now rewrite test_dir_ok.
  - rewrite test_dir_ok_written by assumption.
    rewrite map_flat_map.
    rewrite (flat_map_ext _
               (fun k => map (fun f => (Described.out_file_path f in_dir out_dir,
                                        length (librosa_load C f sample_rate)))
                             (Described.files_of_batch (glob_wav C in_dir)
                                                       batch_size k))).
    + rewrite flat_map_map_files by assumption. f_equal.
      apply firstn_all2. now apply batch_count_covers.
    + intros k. now apply batch_written_lengths.
Qed.

Lemma test_dir_lengths_witness :
  map (fun pw : string * wave => (fst pw, length (snd pw)))
      (written (log_of (Synthesize.test_dir
                          (Demo.world Demo.full_scale Demo.tree [])
                          "in" "out" 22050 2)))
  = [("out/a.wav", 3); ("/s/b.wav", 2); ("out/c.wav", 4); ("out/d.wav", 2);
     ("out/e.wav", 2)].
Proof.
  apply (test_dir_lengths (Demo.world Demo.full_scale Demo.tree [])
                          "in" "out" 22050 2).
  - lia.
  - apply same_shape_full_scale.
  - reflexivity.
  - repeat constructor; discriminate.
Defined.

(** C4: in directory mode, batch [k] of the loader is the collation of the
    files [k * batch_size ...] in their order: as many rows as files, every
    row of the length of the longest, row [i] the pre-emphasised recording
    followed by zeros, the length array holding the true length; and when
    nothing fails, row [i] of the output of the network for that batch, cut
    to that length and de-emphasised, is what is written, as file number
    [k * batch_size + i], at the path computed for the file discovered at
    that position. *)
Theorem test_dir_collation_order (C : collaborators) (in_dir out_dir : string)
        (sample_rate : Z) (batch_size k i : nat) (f : string) :
  0 < batch_size ->
  Described.same_shape C ->
  can_mkdir C out_dir = true ->
  Forall (Described.file_ok C in_dir out_dir sample_rate) (glob_wav C in_dir) ->
  i < batch_size ->
  nth_error (glob_wav C in_dir) (k * batch_size + i) = Some f ->
  let files := Described.files_of_batch (glob_wav C in_dir) batch_size k in
  let L := Collate.max_len
             (map (fun g => Sound.preemphasis (librosa_load C g sample_rate))
                  files) in
  exists (batch_wav : batch) (lens : list (list nat)) (row : wave),
    nth_error (Synthesize.data_loader C (glob_wav C in_dir) sample_rate
                                      batch_size) k
    = Some (batch_wav, lens) /\
    length batch_wav = length files /\
    Forall (fun r => length r = L) batch_wav /\
    nth_error batch_wav i
    = Some (Sound.preemphasis (librosa_load C f sample_rate)
            ++ repeat 0%Q (L - length (librosa_load C f sample_rate))) /\
    nth_error lens i = Some [length (librosa_load C f sample_rate)] /\
    nth_error (model C batch_wav) i = Some row /\
    nth_error (written (log_of (Synthesize.test_dir C in_dir out_dir
                                                    sample_rate batch_size)))
              (k * batch_size + i)
    = Some (Described.out_file_path f in_dir out_dir,
            Sound.inv_preemphasis
              (firstn (length (librosa_load C f sample_rate)) row)).
Proof.
  intros Hb Hs Hm Hok Hi Hf files L.
  assert (Hn : k * batch_size + i < length (glob_wav C in_dir))
    by (apply nth_error_Some; congruence).
  assert (Hk : k < Described.batch_count (length (glob_wav C in_dir)) batch_size)
    by (apply batch_count_gt; lia).
  assert (Hfi : nth_error files i = Some f)
    by (unfold files; now rewrite files_of_batch_nth).
  assert (Hlen : length files
                 = Nat.min batch_size
                           (length (glob_wav C in_dir) - k * batch_size))
    by (now apply files_of_batch_length).
  assert (Hrows : length (model C (Described.batch_of C sample_rate files))
                  = length files) by (now apply output_rows_count).
  destruct (nth_error (model C (Described.batch_of C sample_rate files)) i)
    as [row|] eqn:Hrow; [|apply nth_error_None in Hrow; lia].
  exists (Described.batch_of C sample_rate files),
    (map (fun g => [length (librosa_load C g sample_rate)]) files), row.
  repeat split.
  - rewrite data_loader_eq, nth_error_map, nth_error_seq by assumption.
    destruct (Nat.ltb_spec k (Described.batch_count
                                (length (glob_wav C in_dir)) batch_size));
      [|lia].
    cbn [option_map plus]. fold files. f_equal.
    rewrite (surjective_pairing (Collate.pad_collate_fn _)).
    now rewrite collate_lens.
  - rewrite batch_of_eq. unfold Collate.pad_rows. now rewrite !length_map.
  - rewrite batch_of_eq. apply pad_rows_lengths.
  - rewrite batch_of_eq. unfold Collate.pad_rows.
    rewrite !nth_error_map, Hfi. cbn [option_map]. unfold Collate.pad_to.
    now rewrite preemphasis_length.
  - now rewrite nth_error_map, Hfi.
  - exact Hrow.
  - rewrite test_dir_ok_written by assumption.
    rewrite (nth_error_chunks batch_size Hb _ k i 0); cbn [plus];
      fold files; try assumption.
    + unfold Described.batch_written. rewrite nth_error_map.
      replace (nth_error (combine _ files) i) with (Some (row, f))
        by (symmetry; now apply nth_error_combine).
      reflexivity.
    + intros j Hj. rewrite batch_written_length, files_of_batch_length
        by assumption. nia.
    + rewrite batch_written_length by assumption. lia.
Qed.

Lemma test_dir_collation_order_witness :
  exists (batch_wav : batch) (lens : list (list nat)) (row : wave),
    nth_error (Synthesize.data_loader (Demo.world Demo.identity Demo.tree [])
                                      Demo.tree 22050 2) 1
    = Some (batch_wav, lens) /\
    length batch_wav = 2 /\
    Forall (fun r => length r = 4) batch_wav /\
    nth_error batch_wav 1
    = Some (Sound.preemphasis (Demo.audio "in/d.wav" 22050)
            ++ repeat 0%Q (4 - 2)) /\
    nth_error lens 1 = Some [2] /\
    nth_error batch_wav 1 = Some row /\
    nth_error (written (log_of (Synthesize.test_dir
                                  (Demo.world Demo.identity Demo.tree [])
                                  "in" "out" 22050 2)))
              3
    = Some ("out/d.wav", Sound.inv_preemphasis (firstn 2 row)).
Proof.
  apply (test_dir_collation_order (Demo.world Demo.identity Demo.tree [])
                                  "in" "out" 22050 2 1 1 "in/d.wav").
  - lia.
  - apply same_shape_identity.
  - reflexivity.
  - repeat constructor; discriminate.
  - lia.
  - reflexivity.
Defined.



(** C6: the code at the failing inputs.  When [in_dir] is relative and the
    recording lies in a sub-directory [in_dir/rest], what is left of its
    directory after [in_dir] is removed starts with a separator, and
    [os.path.join] takes it as absolute: the directory made and the file
    written do not depend on [out_dir] and lie outside it, against the
    mirrored path [out_dir/rest/<name>]. *)
Theorem test_worker_leaves_out_dir (in_dir rest file_path out_dir : string)
        (c : ascii) (s : string) :
  in_dir = String c s ->
  c <> "/"%char ->
  Posix.dirname file_path = (in_dir ++ String "/" rest)%string ->
  Described.file_out_dir file_path in_dir out_dir
  = String "/" (PyStr.replace in_dir "" rest) /\
  Described.out_file_path file_path in_dir out_dir
  = Posix.join (String "/" (PyStr.replace in_dir "" rest))
               (Posix.basename file_path).
Proof.
  intros Hin Hc Hdir.
  assert (E : Described.file_out_dir file_path in_dir out_dir
              = String "/" (PyStr.replace in_dir "" rest)).
  { unfold Described.file_out_dir. rewrite Hdir.
    rewrite (replace_after_in_dir in_dir rest c s Hin Hc).
    unfold Posix.join. cbn [String.prefix].
    destruct (ascii_dec "/" "/") as [_|N]; [|now elim N].
    now destruct (PyStr.replace _ "" rest). }
  split; [exact E|]. unfold Described.out_file_path. now rewrite E.
Qed.

Lemma test_worker_leaves_out_dir_witness :
  Described.file_out_dir "in/s/b.wav" "in" "out" = "/s" /\
  Described.out_file_path "in/s/b.wav" "in" "out" = "/s/b.wav".
Proof.
  apply (test_worker_leaves_out_dir "in" "s" "in/s/b.wav" "out" "i" "n").
  - reflexivity.
  - discriminate.
  - reflexivity.
Defined.

(** The run on a tree with one sub-directory, and the other way to give
    [in_dir]: with a trailing separator the sub-directories are mirrored and
    the top-level files are not. *)
Example test_dir_paths :
  map fst (written (log_of (Synthesize.test_dir
                              (Demo.world Demo.identity Demo.tree [])
                              "in" "out" 22050 2)))
  = ["out/a.wav"; "/s/b.wav"; "out/c.wav"; "out/d.wav"; "out/e.wav"] /\
  Described.out_file_path "in/s/b.wav" "in/" "out" = "out/s/b.wav" /\
  Described.out_file_path "in/b.wav" "in/" "out" = "out/in/b.wav".
Proof. repeat split; reflexivity. Qed.

(** * Further properties *)

(** ** [run] around a network that returns its input *)

Section RunIdentity.

Import Sound Synthesize Described.
Local Open Scope Q_scope.

Lemma clip_sample_comp (x y : Q) :
  x == y -> clip_sample (-(1)) 1 x == clip_sample (-(1)) 1 y.
Proof.
  intros E. unfold clip_sample, maximum, minimum.
  rewrite <- (Qleb_comp x y E (-(1)) (-(1)) (Qeq_refl _)).
  destruct (Qle_bool x (-(1))); [reflexivity|].
  rewrite <- (Qleb_comp x y E 1 1 (Qeq_refl _)).
  destruct (Qle_bool x 1); [exact E | reflexivity].
Qed.

Lemma clip_comp (u v : wave) :
  wave_eq u v -> wave_eq (clip (-(1)) 1 u) (clip (-(1)) 1 v).
Proof.
  induction 1 as [|x y u v E _ IH]; simpl; constructor;
    [now apply clip_sample_comp | exact IH].
Qed.

Lemma clip_sample_in_range (x : Q) :
  in_range x -> clip_sample (-(1)) 1 x == x.
Proof.
  intros [Hlo Hhi].
  destruct (clip_sample_clamped x) as [_ [[Hle ->]|[[Hlt _]|[_ ->]]]].
  - now apply Qle_antisym.
  - exfalso. exact (Qlt_not_le _ _ Hlt Hhi).
  - reflexivity.
Qed.

Lemma clip_in_range (w : wave) :
  Forall in_range w -> wave_eq (clip (-(1)) 1 w) w.
Proof.
  induction 1 as [|x w Hx _ IH]; simpl; constructor;
    [now apply clip_sample_in_range | exact IH].
Qed.

(** The round trip with the default coefficient. *)
Lemma round_trip_default (x : wave) :
  wave_eq (inv_preemphasis (preemphasis x)) x.
Proof.
  destruct x as [|s rest]; simpl; constructor; [reflexivity|].
  apply inv_preemphasis_tail_cancel. reflexivity.
Qed.

Lemma wave_eq_trans (u v w : wave) : wave_eq u v -> wave_eq v w -> wave_eq u w.
Proof.
  intros H; revert w; induction H as [|x y u v E _ IH]; intros w Hw;
    inversion Hw; subst; constructor.
  - now rewrite E.
  - now apply IH.
Qed.

End RunIdentity.

(** X1: when the network returns the one row it is given and no low-pass is
    asked, the file [run] writes holds the recording itself, clipped to
    [[-1, 1]]; a recording that lies in that range is written back
    unchanged. *)
Theorem run_identity_round_trip (C : collaborators)
        (audio_file out_path : string) (sample_rate : Z)
        (p : string) (w : wave) (sr : Z) :
  model C [Sound.preemphasis (librosa_load C audio_file sample_rate)]
  = [Sound.preemphasis (librosa_load C audio_file sample_rate)] ->
  In (WriteWav p w sr)
     (log_of (Synthesize.run C audio_file out_path 0 sample_rate)) ->
  Sound.wave_eq w (Sound.clip (-(1))%Q 1%Q
                              (librosa_load C audio_file sample_rate)) /\
  (Forall Sound.in_range (librosa_load C audio_file sample_rate) ->
   Sound.wave_eq w (librosa_load C audio_file sample_rate)).
Proof.
  intros Hid Hin. apply run_written in Hin.
  destruct Hin as (out_wav & Hout & _ & _ & ->).
  rewrite Hid in Hout. injection Hout as <-.
  unfold Described.postprocess_run. cbn [Z.eqb].
  assert (E : Sound.wave_eq
                (Sound.clip (-(1))%Q 1%Q
                   (Sound.inv_preemphasis
                      (Sound.preemphasis
                         (librosa_load C audio_file sample_rate))))
                (Sound.clip (-(1))%Q 1%Q
                            (librosa_load C audio_file sample_rate))).
  { apply clip_comp. apply round_trip_default. }
  split; [exact E|].
  intros Hr. eapply wave_eq_trans; [exact E|]. now apply clip_in_range.
Qed.

Lemma run_identity_round_trip_witness :
  Sound.wave_eq
    (Sound.clip (-(1))%Q 1%Q
       (Sound.inv_preemphasis
          (Sound.preemphasis (Demo.audio "in/c.wav" 22050))))
    (Sound.clip (-(1))%Q 1%Q (Demo.audio "in/c.wav" 22050)).
Proof.
  refine (proj1 (run_identity_round_trip
                   (Demo.world Demo.identity Demo.tree [])
                   "in/c.wav" "o.wav" 22050 "o.wav" _ 22050 _ _)).
  - reflexivity.
  - simpl. right. left. reflexivity.
Defined.

(** ** [test_dir]: what a run does and does not do *)

Section TestDirMore.

Import PyStr Posix Sound Synthesize Described Reading.

Variable C : collaborators.
Variables in_dir out_dir : string.
Variable sample_rate : Z.
Variable batch_size : nat.

Local Abbreviation wav_list := (glob_wav C in_dir).
Local Abbreviation load f := (librosa_load C f sample_rate).

(** *** Every run *)

Lemma test_worker_Forall (P : event -> Prop) (row : wave) (f : string)
      (l : nat) :
  P (Makedirs (file_out_dir f in_dir out_dir)) ->
  (forall w, P (WriteWav (out_file_path f in_dir out_dir) w sample_rate)) ->
  Forall P (log_of (test_worker C row f in_dir out_dir sample_rate l)).
Proof.
  intros Hm Hw. unfold test_worker. apply log_bind_Forall.
  - unfold makedirs. fold (file_out_dir f in_dir out_dir).
    destruct (can_mkdir C _); simpl; auto.
  - intros _. apply log_bind_Forall; [constructor|].
    intros w. apply log_write_wav_Forall. apply Hw.
Qed.

Lemma batch_run_Forall (P : event -> Prop) (files : list string) :
  P (Forward (batch_of C sample_rate files)) ->
  (forall f, In f files ->
             P (Makedirs (file_out_dir f in_dir out_dir)) /\
             forall w, P (WriteWav (out_file_path f in_dir out_dir) w
                                   sample_rate)) ->
  Forall P (log_of (batch_run C in_dir out_dir sample_rate files)).
Proof.
  intros Hf Hfiles. unfold batch_run. apply log_bind_Forall.
  - unfold forward. apply log_bind_Forall; [simpl; auto|].
    intros _. constructor.
  - intros hat. apply log_for_each_Forall. intros [r f] Hin. cbn [fst snd].
    destruct (Hfiles f (in_combine_r _ _ _ _ Hin)) as [Hm Hw].
    now apply test_worker_Forall.
Qed.

(** *** Runs in which nothing fails *)

Hypothesis batch_size_pos : 0 < batch_size.

Lemma batch_count_lt (n k : nat) :
  k < batch_count n batch_size -> k * batch_size < n.
Proof.
  unfold batch_count. intros H.
  pose proof (Nat.div_mod_eq (n + batch_size - 1) batch_size) as E.
  pose proof (Nat.mod_upper_bound (n + batch_size - 1) batch_size) as U.
  nia.
Qed.

Lemma forwards_app (l1 l2 : list event) :
  forwards (l1 ++ l2) = forwards l1 ++ forwards l2.
Proof. apply flat_map_app. Qed.

Lemma forwards_workers (l : list (wave * string)) :
  forwards (flat_map (worker_events C in_dir out_dir sample_rate) l) = [].
Proof. induction l as [|rf l IH]; simpl; [reflexivity | exact IH]. Qed.

Lemma forwards_batches (ks : list nat) :
  forwards (flat_map (fun k => batch_events C in_dir out_dir sample_rate
                                 (files_of_batch wav_list batch_size k)) ks)
  = map (fun k => batch_of C sample_rate
                    (files_of_batch wav_list batch_size k)) ks.
Proof.
  induction ks as [|k ks IH]; [reflexivity|].
  cbn [flat_map map]. rewrite forwards_app, IH. unfold batch_events at 1.
  change (forwards (Forward ?b :: ?l)) with (b :: forwards l).
  now rewrite forwards_workers.
Qed.

Lemma Forall2_flat_map {A B D} (R : A -> B -> Prop) (F : D -> list A)
      (G : D -> list B) (ks : list D) :
  (forall k, Forall2 R (F k) (G k)) ->
  Forall2 R (flat_map F ks) (flat_map G ks).
Proof.
  intros H. induction ks as [|k ks IH]; simpl; [constructor|].
  apply Forall2_app; [apply H | exact IH].
Qed.

Lemma Forall2_map_self {A B} (R : A -> B -> Prop) (h : B -> A) (l : list B) :
  (forall x, In x l -> R (h x) x) -> Forall2 R (map h l) l.
Proof.
  induction l as [|x l IH]; intros H; simpl; constructor.
  - apply H. now left.
  - apply IH. intros y Hy. apply H. now right.
Qed.

Lemma combine_map_self {A B} (h : B -> A) (l : list B) :
  combine (map h l) l = map (fun x => (h x, x)) l.
Proof. induction l as [|x l IH]; simpl; [reflexivity|]. now rewrite IH. Qed.

(** Cutting a padded row at the length of the recording gives the row
    back. *)
Lemma firstn_pad_to (L : nat) (x : wave) :
  firstn (length x) (Collate.pad_to 0%Q L x) = x.
Proof.
  unfold Collate.pad_to.
  rewrite firstn_app, Nat.sub_diag, firstn_all. cbn [firstn].
  apply app_nil_r.
Qed.

End TestDirMore.

(** X2: in directory mode around a network that returns its input, when
    nothing fails, the files written are, in the order of discovery, one per
    recording, at the path computed for it, and each holds its recording:
    padding the batch and cutting the rows back loses nothing. *)
Theorem test_dir_identity_reproduces (C : collaborators)
        (in_dir out_dir : string) (sample_rate : Z) (batch_size : nat) :
  0 < batch_size ->
  (forall b : batch, model C b = b) ->
  can_mkdir C out_dir = true ->
  Forall (Described.file_ok C in_dir out_dir sample_rate) (glob_wav C in_dir) ->
  Forall2 (fun (pw : string * wave) (f : string) =>
             fst pw = Described.out_file_path f in_dir out_dir /\
             Sound.wave_eq (snd pw) (librosa_load C f sample_rate))
          (written (log_of (Synthesize.test_dir C in_dir out_dir sample_rate
                                                batch_size)))
          (glob_wav C in_dir).
Proof.
  intros Hb Hid Hm Hok.
  assert (Hs : Described.same_shape C) by (intros b; now rewrite Hid).
  rewrite test_dir_ok_written by assumption.
  match goal with
  | |- Forall2 ?R ?L _ =>
      enough (G : Forall2 R L
                    (flat_map (Described.files_of_batch (glob_wav C in_dir)
                                                        batch_size)
                              (seq 0 (Described.batch_count
                                        (length (glob_wav C in_dir))
                                        batch_size))))
        by (now rewrite files_concat in G)
  end.
  apply Forall2_flat_map. intros k.
  set (files := Described.files_of_batch (glob_wav C in_dir) batch_size k).
  unfold Described.batch_written. rewrite Hid, batch_of_eq.
  unfold Collate.pad_rows. rewrite map_map, combine_map_self, map_map.
  apply Forall2_map_self. intros f _. cbn [fst snd]. split; [reflexivity|].
  rewrite <- (preemphasis_length (librosa_load C f sample_rate)).
  rewrite firstn_pad_to. apply round_trip_default.
Qed.

Lemma test_dir_identity_reproduces_witness :
  Forall2 (fun (pw : string * wave) (f : string) =>
             fst pw = Described.out_file_path f "in" "out" /\
             Sound.wave_eq (snd pw) (Demo.audio f 22050))
          (written (log_of (Synthesize.test_dir
                              (Demo.world Demo.identity Demo.flat [])
                              "in" "out" 22050 3)))
          Demo.flat.
Proof.
  apply (test_dir_identity_reproduces (Demo.world Demo.identity Demo.flat [])
                                      "in" "out" 22050 3).
  - lia.
  - reflexivity.
  - reflexivity.
  - repeat constructor; discriminate.
Defined.

(** X3: whatever the network returns and whatever fails, [test_dir] only
    makes [out_dir] and the directories computed for the recordings found,
    only writes at the paths computed for them, with the sample rate it was
    given, and only runs the network on the collated batches of their
    files. *)
Theorem test_dir_touches_only_computed_paths (C : collaborators)
        (in_dir out_dir : string) (sample_rate : Z) (batch_size : nat)
        (e : event) :
  In e (log_of (Synthesize.test_dir C in_dir out_dir sample_rate batch_size)) ->
  match e with
  | Makedirs p =>
      p = out_dir \/
      exists f, In f (glob_wav C in_dir) /\
                p = Described.file_out_dir f in_dir out_dir
  | WriteWav p w sr =>
      sr = sample_rate /\
      exists f, In f (glob_wav C in_dir) /\
                p = Described.out_file_path f in_dir out_dir
  | Forward b =>
      exists k, b = Described.batch_of C sample_rate
                      (Described.files_of_batch (glob_wav C in_dir)
                                                batch_size k)
  end.
Proof.
  set (P := fun e : event =>
              match e with
              | Makedirs p =>
                  p = out_dir \/
                  exists f, In f (glob_wav C in_dir) /\
                            p = Described.file_out_dir f in_dir out_dir
              | WriteWav p w sr =>
                  sr = sample_rate /\
                  exists f, In f (glob_wav C in_dir) /\
                            p = Described.out_file_path f in_dir out_dir
              | Forward b =>
                  exists k, b = Described.batch_of C sample_rate
                                  (Described.files_of_batch
                                     (glob_wav C in_dir) batch_size k)
              end).
  intros Hin. change (P e). revert e Hin. apply Forall_forall.
  destruct (Nat.eq_dec batch_size 0) as [->|Hb].
  - constructor.
  - assert (Hpos : 0 < batch_size) by lia.
    rewrite test_dir_eq by assumption. apply log_bind_Forall.
    + unfold Synthesize.makedirs. destruct (can_mkdir C out_dir); simpl; auto.
      constructor; [now left | constructor].
    + intros _. apply log_for_each_Forall. intros k _.
      apply batch_run_Forall.
      * now exists k.
      * intros f Hf. apply In_files_of_batch in Hf.
        split; [right; now exists f|].
        intros w. split; [reflexivity | now exists f].
Qed.

Lemma test_dir_touches_only_computed_paths_witness :
  22050%Z = 22050%Z /\
  exists f, In f Demo.flat /\
            "out/e.wav" = Described.out_file_path f "in" "out".
Proof.
  apply (test_dir_touches_only_computed_paths
           (Demo.world Demo.identity Demo.flat ["out/c.wav"])
           "in" "out" 22050 4
           (WriteWav "out/e.wav"
                     (Sound.inv_preemphasis
                        (Sound.preemphasis (Demo.audio "in/e.wav" 22050)))
                     22050)).
  simpl. do 5 right. left. reflexivity.
Defined.

(** X4: when nothing fails, [test_dir] runs the network once per batch,
    [ceil(n / batch_size)] times for [n] recordings, batch [k] being the
    collation of the recordings [k * batch_size ...], at most [batch_size]
    of them; and inference and writing alternate: when the network is run on
    batch [k], it has been run [k] times before and the [k * batch_size]
    files of the earlier batches are already written. *)
Theorem test_dir_batches (C : collaborators) (in_dir out_dir : string)
        (sample_rate : Z) (batch_size k : nat) :
  0 < batch_size ->
  Described.same_shape C ->
  can_mkdir C out_dir = true ->
  Forall (Described.file_ok C in_dir out_dir sample_rate) (glob_wav C in_dir) ->
  let n := length (glob_wav C in_dir) in
  let log := log_of (Synthesize.test_dir C in_dir out_dir sample_rate
                                         batch_size) in
  let batch_at j :=
    Described.batch_of C sample_rate
      (Described.files_of_batch (glob_wav C in_dir) batch_size j) in
  Reading.forwards log
  = map batch_at (seq 0 (Described.batch_count n batch_size)) /\
  (k < Described.batch_count n batch_size ->
   length (batch_at k) = Nat.min batch_size (n - k * batch_size) /\
   exists before after,
     log = before ++ Forward (batch_at k) :: after /\
     length (Reading.forwards before) = k /\
     length (written before) = k * batch_size).
Proof.
  intros Hb Hs Hm Hok n log batch_at. subst log.
  rewrite test_dir_ok by assumption. unfold log_of, snd. split.
  - change (Reading.forwards (Makedirs out_dir :: ?l))
      with (Reading.forwards l).
    apply forwards_batches.
  - intros Hk. split.
    + unfold batch_at. rewrite batch_of_eq. unfold Collate.pad_rows.
      rewrite !length_map. now apply files_of_batch_length.
    + fold n.
      replace (Described.batch_count n batch_size)
        with (k + S (Described.batch_count n batch_size - S k)) by lia.
      rewrite seq_app, flat_map_app. cbn [seq plus flat_map].
      unfold Described.batch_events at 2. fold (batch_at k).
      eexists (Makedirs out_dir :: flat_map _ (seq 0 k)), _.
      split; [cbn [app]; reflexivity|]. split.
      * change (Reading.forwards (Makedirs out_dir :: ?l))
          with (Reading.forwards l).
        now rewrite forwards_batches, length_map, length_seq.
      * change (written (Makedirs out_dir :: ?l)) with (written l).
        rewrite <- (length_map fst), written_flat_map, map_flat_map.
        rewrite (flat_map_ext _
                   (fun j => map (fun g => Described.out_file_path g in_dir
                                             out_dir)
                                 (Described.files_of_batch
                                    (glob_wav C in_dir) batch_size j))).
        -- rewrite flat_map_map_files, length_map, length_firstn
             by assumption.
           apply (batch_count_lt batch_size Hb) in Hk. fold n. lia.
        -- intros j. rewrite written_batch_events.
           now apply batch_written_paths.
Qed.

Lemma test_dir_batches_witness :
  exists before after,
    log_of (Synthesize.test_dir (Demo.world Demo.identity Demo.tree [])
                                "in" "out" 22050 2)
    = before
      ++ Forward (Described.batch_of (Demo.world Demo.identity Demo.tree [])
                    22050 ["in/e.wav"])
      :: after /\
    length (Reading.forwards before) = 2 /\
    length (written before) = 2 * 2.
Proof.
  apply (test_dir_batches (Demo.world Demo.identity Demo.tree [])
                          "in" "out" 22050 2 2).
  - lia.
  - apply same_shape_identity.
  - reflexivity.
  - repeat constructor; discriminate.
  - vm_compute. lia.
Defined.

(** X5: on nothing to do, both batch modes only make [out_dir]: [test_dir]
    on a directory without recordings and [validate] on a loader without
    batches run no inference and write no file, and fail only if [out_dir]
    cannot be made. *)
Theorem empty_input_only_makes_out_dir (C : collaborators)
        (in_dir meta_dir out_dir : string) (sample_rate : Z)
        (batch_size : nat) :
  0 < batch_size ->
  (glob_wav C in_dir = [] ->
   Synthesize.test_dir C in_dir out_dir sample_rate batch_size
   = Synthesize.makedirs C out_dir) /\
  (valid_loader C meta_dir batch_size = [] ->
   Synthesize.validate C meta_dir out_dir batch_size
   = Synthesize.makedirs C out_dir).
Proof.
  intros Hb. split; intros Hnil.
  - rewrite test_dir_eq by assumption. rewrite Hnil. cbn [length].
    unfold Described.batch_count. rewrite Nat.div_small by lia.
    cbn [seq for_each]. unfold bind, ret.
    destruct (Synthesize.makedirs C out_dir) as [[[]|e] l]; [|reflexivity].
    now rewrite app_nil_r.
  - unfold Synthesize.validate. rewrite Hnil. cbn. unfold bind.
    destruct (Synthesize.makedirs C out_dir) as [[[]|e] l]; [|reflexivity].
    now rewrite app_nil_r.
Qed.

Lemma empty_input_only_makes_out_dir_witness :
  Synthesize.test_dir (Demo.world Demo.identity [] []) "in" "out" 22050 4
  = Synthesize.makedirs (Demo.world Demo.identity [] []) "out".
Proof.
  refine (proj1 (empty_input_only_makes_out_dir
                   (Demo.world Demo.identity [] []) "in" "meta" "out" 22050 4
                   _) _).
  - lia.
  - reflexivity.
Defined.

(** ** The path [test_worker] computes *)

Section WorkerPath.

Import PyStr Posix Described.

Lemma string_app_nil_r (s : string) : (s ++ "")%string = s.
Proof. induction s as [|x s IH]; simpl; [reflexivity|]. now rewrite IH. Qed.

Lemma substring_all (s : string) : substring 0 (String.length s) s = s.
Proof. induction s as [|x s IH]; simpl; [reflexivity|]. now rewrite IH. Qed.

Lemma prefix_slash_cons (x : ascii) (r : string) :
  Ascii.eqb x slash = false -> String.prefix "/" (String x r) = false.
Proof.
  intros H. cbn [String.prefix].
  destruct (ascii_dec "/" x) as [<-|_]; [discriminate | reflexivity].
Qed.

(** No separator in [r]: [r] does not start with one. *)
Lemma rfind_zero_no_leading_slash (r : string) :
  rfind_slash_succ r = 0 -> String.prefix "/" r = false.
Proof.
  destruct r as [|x r]; [reflexivity|]. cbn [rfind_slash_succ].
  destruct (rfind_slash_succ r); [|discriminate].
  destruct (Ascii.eqb x slash) eqn:E; [discriminate|].
  intros _. now apply prefix_slash_cons.
Qed.

(** [os.path.basename] is what follows the last separator: it does not
    start with one. *)
Lemma basename_no_leading_slash (p : string) :
  String.prefix "/" (basename p) = false.
Proof.
  induction p as [|c r IH]; [reflexivity|].
  unfold basename in *. cbn [rfind_slash_succ String.length].
  destruct (rfind_slash_succ r) as [|k] eqn:E.
  - destruct (Ascii.eqb c slash) eqn:Ec.
    + cbn [substring Nat.sub]. rewrite Nat.sub_0_r, substring_all.
      now apply rfind_zero_no_leading_slash.
    + cbn [substring Nat.sub]. rewrite substring_all.
      now apply prefix_slash_cons.
  - cbn [substring Nat.sub]. exact IH.
Qed.

Lemma endswith_slash_app (a : string) : endswith_slash (a ++ "/") = true.
Proof.
  induction a as [|x a IH]; [reflexivity|].
  change (String x a ++ "/")%string with (String x (a ++ "/")).
  cbn [endswith_slash]. destruct (a ++ "/")%string eqn:E; [|exact IH].
  destruct a; discriminate.
Qed.

(** Joining through the empty sub-directory is joining directly. *)
Lemma join_through_empty (a b : string) :
  String.prefix "/" b = false -> join (join a "") b = join a b.
Proof.
  intros Hb. unfold join. rewrite Hb. cbn [String.prefix].
  destruct (String.eqb a "" || endswith_slash a) eqn:E.
  - rewrite string_app_nil_r. now rewrite E.
  - rewrite endswith_slash_app, orb_true_r.
    cbn [append]. now rewrite string_app_assoc.
Qed.

Lemma prefix_refl (a : string) : String.prefix a a = true.
Proof. rewrite <- (string_app_nil_r a) at 2. apply prefix_app. Qed.

(** [in_dir] in front of a path is removed, and with it every other
    occurrence. *)
Lemma replace_in_front (in_dir rest : string) :
  in_dir <> ""%string ->
  replace in_dir "" (in_dir ++ rest) = replace in_dir "" rest.
Proof.
  destruct in_dir as [|c s]; [congruence|]. intros _.
  unfold replace.
  change (String c s ++ rest)%string with (String c (s ++ rest)).
  cbn [replace_from].
  change (String c (s ++ rest)) with (String c s ++ rest)%string.
  rewrite prefix_app. cbn [String.length Nat.sub append].
  now rewrite Nat.sub_0_r, replace_from_skip.
Qed.

(** Removing [in_dir] from itself leaves nothing. *)
Lemma replace_self (in_dir : string) :
  in_dir <> ""%string -> replace in_dir "" in_dir = ""%string.
Proof.
  intros H. rewrite <- (string_app_nil_r in_dir) at 2.
  rewrite replace_in_front by assumption. now destruct in_dir.
Qed.



End WorkerPath.

(** X6: a recording that lies directly in [in_dir] (given as the search gives
    it back, without trailing separator) is written to
    [os.path.join(out_dir, <its name>)]: top-level files are mirrored. *)
Theorem test_worker_top_level_path (in_dir out_dir file_path : string) :
  Posix.dirname file_path = in_dir ->
  Described.out_file_path file_path in_dir out_dir
  = Posix.join out_dir (Posix.basename file_path).
Proof.
  intros Hdir. unfold Described.out_file_path, Described.file_out_dir.
  rewrite Hdir.
  replace (PyStr.replace in_dir "" in_dir) with ""%string.
  - apply join_through_empty, basename_no_leading_slash.
  - destruct in_dir as [|c s]; [reflexivity|].
    symmetry. now apply replace_self.
Qed.

Lemma test_worker_top_level_path_witness :
  Described.out_file_path "data/in/a.wav" "data/in" "out"
  = Posix.join "out" (Posix.basename "data/in/a.wav").
Proof.
  apply (test_worker_top_level_path "data/in" "out" "data/in/a.wav").
  reflexivity.
Defined.



(** ** The names [validate] gives *)

Section ValidateNames.

Import PyStr Posix Reading.

Lemma string_app_inv_head (p x y : string) :
  (p ++ x = p ++ y)%string -> x = y.
Proof.
  induction p as [|c p IH]; simpl; [tauto|]. intros [= H]. now apply IH.
Qed.

(** Last components that are not absolute are kept apart by
    [os.path.join]. *)
Lemma join_inj_r (a x y : string) :
  String.prefix "/" x = false -> String.prefix "/" y = false ->
  join a x = join a y -> x = y.
Proof.
  unfold join. intros -> ->.
  destruct (String.eqb a "" || endswith_slash a).
  - apply string_app_inv_head.
  - intros H. apply string_app_inv_head in H. now injection H.
Qed.

(** The decimal digits of a number: no underscore among them, and no
    separator in front. *)
Lemma digits_no_underscore (d : Decimal.uint) :
  contains_char "_" (NilEmpty.string_of_uint d) = false.
Proof. induction d; simpl; auto. Qed.

Lemma str_of_nat_no_underscore (n : nat) :
  contains_char "_" (str_of_nat n) = false.
Proof.
  unfold str_of_nat, NilZero.string_of_uint.
  destruct (Nat.to_uint n) eqn:E; try reflexivity;
    rewrite <- E; apply digits_no_underscore.
Qed.

Lemma str_of_nat_not_absolute (n : nat) (kind : string) :
  String.prefix "/" (str_of_nat n ++ kind) = false.
Proof.
  unfold str_of_nat, NilZero.string_of_uint.
  destruct (Nat.to_uint n); reflexivity.
Qed.

Lemma str_of_nat_inj (n m : nat) : str_of_nat n = str_of_nat m -> n = m.
Proof.
  unfold str_of_nat. intros H.
  set (fix0 := fun d : Decimal.uint =>
                 match d with Decimal.Nil => Decimal.D0 Decimal.Nil | _ => d end).
  assert (S : forall d, NilZero.string_of_uint d
                        = NilEmpty.string_of_uint (fix0 d))
    by (now intros []).
  assert (O : forall d, Nat.of_uint (fix0 d) = Nat.of_uint d)
    by (now intros []).
  rewrite !S in H.
  apply (f_equal NilEmpty.uint_of_string) in H.
  rewrite !NilEmpty.usu in H. injection H as H.
  apply (f_equal Nat.of_uint) in H.
  now rewrite !O, !DecimalNat.Unsigned.of_to in H.
Qed.

(** A string is cut in one way only at the first occurrence of a
    character. *)
Lemma split_at_first (c : ascii) (s s' k k' : string) :
  contains_char c s = false -> contains_char c s' = false ->
  (s ++ String c k = s' ++ String c k')%string -> s = s' /\ k = k'.
Proof.
  revert s'; induction s as [|x s IH]; intros [|y s'] Hs Hs' H;
    simpl in *.
  - injection H as <-. now split.
  - injection H as <- _. rewrite Ascii.eqb_refl in Hs'. discriminate.
  - injection H as -> _. rewrite Ascii.eqb_refl in Hs. discriminate.
  - injection H as <- H.
    apply orb_false_iff in Hs, Hs'.
    destruct (IH s' (proj2 Hs) (proj2 Hs') H) as [-> ->]. now split.
Qed.

Lemma kinds_start (kind : string) :
  In kind kinds -> exists k, kind = String "_" k.
Proof.
  intros [<-|[<-|[<-|[]]]]; eexists; reflexivity.
Qed.

End ValidateNames.

(** X8: [validate] gives different files different names: as long as every
    batch holds at most [batch_size] items, the name
    [os.path.join(out_dir, '<idx * batch_size + in_idx>_<kind>.wav')]
    determines the batch, the item and the kind, so no file of a run
    overwrites another. *)
Theorem validate_names_distinct (out_dir : string)
        (batch_size idx in_idx idx' in_idx' : nat) (kind kind' : string) :
  in_idx < batch_size ->
  in_idx' < batch_size ->
  In kind Reading.kinds ->
  In kind' Reading.kinds ->
  Posix.join out_dir (PyStr.str_of_nat (idx * batch_size + in_idx) ++ kind)
  = Posix.join out_dir
               (PyStr.str_of_nat (idx' * batch_size + in_idx') ++ kind') ->
  idx = idx' /\ in_idx = in_idx' /\ kind = kind'.
Proof.
  intros Hi Hi' Hk Hk' H.
  apply join_inj_r in H; try apply str_of_nat_not_absolute.
  destruct (kinds_start kind Hk) as [k ->].
  destruct (kinds_start kind' Hk') as [k' ->].
  apply split_at_first in H; try apply str_of_nat_no_underscore.
  destruct H as [Hn ->]. apply str_of_nat_inj in Hn.
  assert (idx = idx') by nia. subst idx'.
  repeat split; lia.
Qed.

Lemma validate_names_distinct_witness :
  3 = 3 /\ 1 = 1 /\ "_pred.wav"%string = "_pred.wav"%string.
Proof.
  apply (validate_names_distinct "out" 64 3 1 3 1 "_pred.wav" "_pred.wav").
  - lia.
  - lia.
  - simpl. auto.
  - simpl. auto.
  - reflexivity.
Defined.

(** ** [validate]: the noisy file, and how a run fails *)

Section ValidateMore.

Import PyStr Posix Sound Synthesize Described Reading.

Variable C : collaborators.

Lemma clean_is_not_noise (a d : string) :
  endswith "_noise.wav" (join a (d ++ "_clean.wav")) = false.
Proof.
  destruct (endswith _ _) eqn:E; [|reflexivity].
  apply endswith_join in E. destruct E as (p & q & E).
  apply string_app_inv_tail in E; [discriminate | reflexivity].
Qed.

Lemma pred_is_not_noise (a d : string) :
  endswith "_noise.wav" (join a (d ++ "_pred.wav")) = false.
Proof.
  destruct (endswith _ _) eqn:E; [|reflexivity].
  apply endswith_join in E. destruct E as (p & q & E).
  change "_noise.wav"%string with ("_" ++ "noise.wav")%string in E.
  rewrite <- (string_app_assoc q) in E.
  apply string_app_inv_tail in E; [discriminate | reflexivity].
Qed.





End ValidateMore.

(** X9: a file of [validate] whose name ends in [_noise.wav] holds the noisy
    row as the network received it (after the torch pre-emphasis),
    de-emphasised and not clipped; when the torch module computes the same
    pre-emphasis as [preemphasis], the file holds the noisy row the loader
    yielded. *)
Theorem validate_noise_de_emphasised (C : collaborators)
        (meta_dir out_dir : string) (batch_size : nat)
        (p : string) (w : wave) (sr : Z) :
  In (WriteWav p w sr)
     (log_of (Synthesize.validate C meta_dir out_dir batch_size)) ->
  PyStr.endswith "_noise.wav" p = true ->
  exists b i noise clean row,
    nth_error (valid_loader C meta_dir batch_size) b = Some (noise, clean) /\
    nth_error (preemp C noise) i = Some row /\
    w = Sound.inv_preemphasis row /\
    (preemp C noise = map Sound.preemphasis noise ->
     exists x, nth_error noise i = Some x /\ Sound.wave_eq w x).
Proof.
  intros Hin Hp.
  pose (P := fun e : event =>
               match e with
               | WriteWav p w _ =>
                   PyStr.endswith "_noise.wav" p = true ->
                   exists b i noise clean row,
                     nth_error (valid_loader C meta_dir batch_size) b
                     = Some (noise, clean) /\
                     nth_error (preemp C noise) i = Some row /\
                     w = Sound.inv_preemphasis row /\
                     (preemp C noise = map Sound.preemphasis noise ->
                      exists x, nth_error noise i = Some x /\
                                Sound.wave_eq w x)
               | _ => True
               end).
  refine (validate_written C P meta_dir out_dir batch_size _ _ Hin eq_refl Hp).
  intros b i h n c (nz & cl & Hb & _ & Hn & _).
  unfold Described.item_events, Described.item_path, P.
  repeat constructor.
  - rewrite clean_is_not_noise. discriminate.
  - intros _. exists b, i, nz, cl, n. repeat split; try assumption.
    intros E. rewrite E, nth_error_map in Hn.
    destruct (nth_error nz i) as [x|]; [|discriminate].
    injection Hn as <-. exists x. split; [reflexivity|].
    apply round_trip_default.
  - rewrite pred_is_not_noise. discriminate.
Qed.

Lemma validate_noise_de_emphasised_witness :
  exists b i noise clean row,
    nth_error (valid_loader (Demo.world Demo.identity Demo.tree []) "meta" 2) b
    = Some (noise, clean) /\
    nth_error (map Sound.preemphasis noise) i = Some row /\
    Sound.inv_preemphasis (Sound.preemphasis [1; 1]%Q)
    = Sound.inv_preemphasis row /\
    (map Sound.preemphasis noise = map Sound.preemphasis noise ->
     exists x, nth_error noise i = Some x /\
               Sound.wave_eq
                 (Sound.inv_preemphasis (Sound.preemphasis [1; 1]%Q)) x).
Proof.
  apply (validate_noise_de_emphasised
           (Demo.world Demo.identity Demo.tree []) "meta" "out" 2
           "out/0_noise.wav" _ 22050).
  - simpl. do 4 right. left. reflexivity.
  - reflexivity.
Defined.


